(** * Per-thread data registry of the kernel-mode CRT (per_thread_data.cpp)

    A shallow embedding of the per-thread data (PTD) registry: the identity
    resolver [__get_thread_uid], the three callbacks handed to the kernel's
    generic AVL table, and the registry operations
    [__acrt_initialize_ptd], [__acrt_uninitialize_ptd],
    [__acrt_getptd_noexit], [__acrt_getptd] and [__acrt_freeptd].

    The kernel primitives the file calls (the non-paged lookaside list, the
    generic AVL table, the queued spin lock, the CRT heap's [free]) are not
    part of the repository; they are modelled by their documented contracts
    in the first half of the file. *)

From Stdlib Require Import ZArith Lia.
From stdpp Require Import base list sorting gmap sets.

Local Open Scope Z_scope.

(** ** Data model *)

(** [CLIENT_ID]: the pair of OS identifiers of a thread.  Both are
    pointer-sized handles. *)
Record CLIENT_ID : Type := mkCid { UniqueProcess : Z; UniqueThread : Z }.

(** The thread object behind a [PETHREAD]. *)
Record ETHREAD : Type := mkThread { Cid : CLIENT_ID }.

Definition PsGetThreadClientId (thread : ETHREAD) : CLIENT_ID := Cid thread.

(** [PsGetCurrentThreadId()] for the thread that is running. *)
Definition PsGetCurrentThreadId (current : ETHREAD) : Z :=
  UniqueThread (Cid current).

(** [struct __acrt_ptd]: the two owned buffers the file touches, and the
    remaining bytes of the structure. *)
Record acrt_ptd : Type := mkPtd {
  _strerror_buffer : Z;
  _wcserror_buffer : Z;
  _scratch : list Z
}.

(** [struct __acrt_ptd_km : __acrt_ptd { void* tid; long long uid; }] *)
Record acrt_ptd_km : Type := mkPtdKm {
  base : acrt_ptd;
  tid : Z;
  uid : Z
}.

Inductive RTL_GENERIC_COMPARE_RESULTS : Type :=
| GenericLessThan
| GenericGreaterThan
| GenericEqual.

(** The machine state the registry lives in.  Addresses are integers; the
    three statics of the file are the last three fields. *)
Record world : Type := mkWorld {
  (** free buffers of the system non-paged pool (block size of the list) *)
  nonpaged : list Z;
  (** the [__acrt_ptd_km] object stored at an address *)
  mem : Z -> acrt_ptd_km;
  (** live allocations of the CRT heap (malloc/free) *)
  crt_heap : gset Z;
  (** [NPAGED_LOOKASIDE_LIST]: [None] before initialisation and after
      deletion, otherwise the buffers cached on the list *)
  __acrt_startup_ptd_pools : option (list Z);
  (** [RTL_AVL_TABLE]: the node addresses in table order *)
  __acrt_startup_ptd_table : list Z;
  (** [KSPIN_LOCK]: [true] while held *)
  __acrt_startup_ptd_table_lock : bool
}.

Definition set_nonpaged (l : list Z) (w : world) : world :=
  mkWorld l (mem w) (crt_heap w) (__acrt_startup_ptd_pools w)
          (__acrt_startup_ptd_table w) (__acrt_startup_ptd_table_lock w).

Definition set_mem (m : Z -> acrt_ptd_km) (w : world) : world :=
  mkWorld (nonpaged w) m (crt_heap w) (__acrt_startup_ptd_pools w)
          (__acrt_startup_ptd_table w) (__acrt_startup_ptd_table_lock w).

Definition set_crt_heap (h : gset Z) (w : world) : world :=
  mkWorld (nonpaged w) (mem w) h (__acrt_startup_ptd_pools w)
          (__acrt_startup_ptd_table w) (__acrt_startup_ptd_table_lock w).

Definition set_pools (p : option (list Z)) (w : world) : world :=
  mkWorld (nonpaged w) (mem w) (crt_heap w) p
          (__acrt_startup_ptd_table w) (__acrt_startup_ptd_table_lock w).

Definition set_table (t : list Z) (w : world) : world :=
  mkWorld (nonpaged w) (mem w) (crt_heap w) (__acrt_startup_ptd_pools w)
          t (__acrt_startup_ptd_table_lock w).

Definition set_lock (b : bool) (w : world) : world :=
  mkWorld (nonpaged w) (mem w) (crt_heap w) (__acrt_startup_ptd_pools w)
          (__acrt_startup_ptd_table w) b.

(** Store [v] at address [a]. *)
Definition store (a : Z) (v : acrt_ptd_km) (m : Z -> acrt_ptd_km)
  : Z -> acrt_ptd_km :=
  fun x => if Z.eqb x a then v else m x.

(** ** Outcomes and the monad of kernel-mode code *)

(** A call either returns a value in a new state, ends the process through
    [abort()], violates the contract of a kernel routine (a bug check),
    spins for ever on a lock that is held, or exhausts the fuel of a loop. *)
Inductive outcome (A : Type) : Type :=
| Returned (a : A) (w : world)
| Aborted
| BugCheck
| Deadlock
| OutOfFuel.

Arguments Returned {A} a w.
Arguments Aborted {A}.
Arguments BugCheck {A}.
Arguments Deadlock {A}.
Arguments OutOfFuel {A}.

Definition M (A : Type) : Type := world -> outcome A.

Definition ret {A : Type} (a : A) : M A := fun w => Returned a w.

Definition bind {A B : Type} (m : M A) (k : A -> M B) : M B :=
  fun w =>
    match m w with
    | Returned a w' => k a w'
    | Aborted => Aborted
    | BugCheck => BugCheck
    | Deadlock => Deadlock
    | OutOfFuel => OutOfFuel
    end.

#[global] Instance M_ret : MRet M := @ret.
#[global] Instance M_bind : MBind M := fun A B k m => bind m k.

Definition gets {A : Type} (f : world -> A) : M A :=
  fun w => Returned (f w) w.

Definition modify (f : world -> world) : M unit :=
  fun w => Returned tt (f w).

(** [abort()]: abnormal termination of the process. *)
Definition abort {A : Type} : M A := fun _ => Aborted.

(** Sizes of the two types whose declarations are in headers outside the
    file: the AVL node header that precedes the user data of every table
    element, and the bytes of [__acrt_ptd] besides its two owned buffers. *)
Class Layout : Type := mkLayout {
  sizeof_RTL_BALANCED_LINKS : Z;
  sizeof_acrt_ptd_rest : nat
}.

(** ** The identity resolver *)

(** [reinterpret_cast<size_t>] of a handle on a 64-bit target. *)
Definition to_size_t (x : Z) : Z := x mod 2 ^ 64.

(** Wrap-around of a 64-bit two's complement [long long]. *)
Definition to_long_long (x : Z) : Z := (x + 2 ^ 63) mod 2 ^ 64 - 2 ^ 63.

(** [~uint32_t(0)] *)
Definition uint32_max : Z := 2 ^ 32 - 1.

Definition __get_thread_uid (thread : ETHREAD) : Z :=
  let id := PsGetThreadClientId thread in
  let high := Z.shiftr (to_size_t (UniqueProcess id)) 2 in
  let low := Z.shiftr (to_size_t (UniqueThread id)) 2 in
  Z.lor (to_long_long (Z.shiftl (Z.land high uint32_max) 32))
        (Z.land low uint32_max).

(** ** Kernel primitives, by their documented contracts *)

(** *** Non-paged lookaside list

    Allocation takes a cached buffer when there is one and falls back to the
    system pool; it yields no buffer when both are empty.  A freed buffer is
    cached on the list.  Deleting the list returns the cached buffers to the
    system pool.  Every routine but the initialisation requires an
    initialised list. *)

Definition ExInitializeNPagedLookasideList : M unit :=
  modify (set_pools (Some [])).

Definition ExAllocateFromNPagedLookasideList : M (option Z) :=
  fun w =>
    match __acrt_startup_ptd_pools w with
    | None => BugCheck
    | Some (entry :: cached) => Returned (Some entry) (set_pools (Some cached) w)
    | Some [] =>
        match nonpaged w with
        | entry :: rest => Returned (Some entry) (set_nonpaged rest w)
        | [] => Returned None w
        end
    end.

Definition ExFreeToNPagedLookasideList (entry : Z) : M unit :=
  fun w =>
    match __acrt_startup_ptd_pools w with
    | None => BugCheck
    | Some cached => Returned tt (set_pools (Some (entry :: cached)) w)
    end.

Definition ExDeleteNPagedLookasideList : M unit :=
  fun w =>
    match __acrt_startup_ptd_pools w with
    | None => BugCheck
    | Some cached =>
        Returned tt (set_pools None (set_nonpaged (cached ++ nonpaged w) w))
    end.

(** *** CRT heap: [free(nullptr)] does nothing, otherwise the allocation
    ceases to be live. *)
Definition free (block : Z) : M unit :=
  if block =? 0 then ret tt
  else modify (fun w => set_crt_heap (crt_heap w ∖ {[block]}) w).

(** *** Queued spin lock *)

Definition KeInitializeSpinLock : M unit := modify (set_lock false).

Definition KeAcquireInStackQueuedSpinLock : M unit :=
  fun w =>
    if __acrt_startup_ptd_table_lock w then Deadlock
    else Returned tt (set_lock true w).

Definition KeReleaseInStackQueuedSpinLock : M unit :=
  fun w =>
    if __acrt_startup_ptd_table_lock w then Returned tt (set_lock false w)
    else BugCheck.

(** *** Generic AVL table

    The table is represented by the sequence of its nodes in the order of
    the comparison routine; the balanced-links header of a node occupies
    the [sizeof_RTL_BALANCED_LINKS] bytes in front of the element's user
    data, so an element pointer is the node address plus that size.  The
    routines are generic in the three callbacks registered with the table. *)
Section GenericTable.
Context `{Layout}.
Variable CompareRoutine :
  acrt_ptd_km -> acrt_ptd_km -> RTL_GENERIC_COMPARE_RESULTS.
Variable AllocateRoutine : M (option Z).
Variable FreeRoutine : Z -> M unit.

Definition user_data (node : Z) : Z := node + sizeof_RTL_BALANCED_LINKS.

(** Ordered search for the node that compares equal to [Buffer]. *)
Fixpoint find_node (m : Z -> acrt_ptd_km) (Buffer : acrt_ptd_km)
    (nodes : list Z) : option Z :=
  match nodes with
  | [] => None
  | node :: rest =>
      match CompareRoutine Buffer (m (user_data node)) with
      | GenericEqual => Some node
      | GenericLessThan => None
      | GenericGreaterThan => find_node m Buffer rest
      end
  end.

(** Link [new] at the place where the search for [Buffer] ended. *)
Fixpoint link_node (m : Z -> acrt_ptd_km) (Buffer : acrt_ptd_km) (new : Z)
    (nodes : list Z) : list Z :=
  match nodes with
  | [] => [new]
  | node :: rest =>
      match CompareRoutine Buffer (m (user_data node)) with
      | GenericGreaterThan => node :: link_node m Buffer new rest
      | _ => new :: node :: rest
      end
  end.

Fixpoint unlink_node (node : Z) (nodes : list Z) : list Z :=
  match nodes with
  | [] => []
  | n :: rest => if n =? node then rest else n :: unlink_node node rest
  end.

Definition RtlInitializeGenericTableAvl : M unit := modify (set_table []).

Definition RtlLookupElementGenericTableAvl (Buffer : acrt_ptd_km)
  : M (option Z) :=
  gets (fun w =>
          user_data <$> find_node (mem w) Buffer (__acrt_startup_ptd_table w)).

(** Returns the element pointer and the [NewElement] flag.  A new node is
    obtained from the allocation routine, [Buffer] is copied into its user
    data, and the node is linked; when the allocation routine yields no
    memory the table is unchanged and the result is null. *)
Definition RtlInsertElementGenericTableAvl (Buffer : acrt_ptd_km)
  : M (option Z * bool) :=
  found ← gets (fun w =>
                  find_node (mem w) Buffer (__acrt_startup_ptd_table w));
  match found with
  | Some node => ret (Some (user_data node), false)
  | None =>
      memory ← AllocateRoutine;
      match memory with
      | None => ret (None, false)
      | Some node =>
          modify (fun w =>
            set_table
              (link_node (mem w) Buffer node (__acrt_startup_ptd_table w))
              (set_mem (store (user_data node) Buffer (mem w)) w));;
          ret (Some (user_data node), true)
      end
  end.

(** Unlinks the node that compares equal to [Buffer] and hands it to the
    free routine; [false] when there is none. *)
Definition RtlDeleteElementGenericTableAvl (Buffer : acrt_ptd_km) : M bool :=
  found ← gets (fun w =>
                  find_node (mem w) Buffer (__acrt_startup_ptd_table w));
  match found with
  | None => ret false
  | Some node =>
      modify (fun w =>
                set_table (unlink_node node (__acrt_startup_ptd_table w)) w);;
      FreeRoutine node;;
      ret true
  end.

(** The [I]-th element in table order, null past the end. *)
Definition RtlGetElementGenericTableAvl (I : nat) : M (option Z) :=
  gets (fun w => user_data <$> __acrt_startup_ptd_table w !! I).
End GenericTable.

(** ** The registry (per_thread_data.cpp) *)

Section Registry.
Context `{Layout}.

Definition __acrt_ptd_table_compare (first second : acrt_ptd_km)
  : RTL_GENERIC_COMPARE_RESULTS :=
  if tid first <? tid second then GenericLessThan
  else if tid first >? tid second then GenericGreaterThan
  else GenericEqual.

Definition __acrt_ptd_table_allocate : M (option Z) :=
  ExAllocateFromNPagedLookasideList.

Definition __acrt_ptd_table_free (buffer : Z) : M unit :=
  let ptd := buffer + sizeof_RTL_BALANCED_LINKS in
  strerror_buffer ← gets (fun w => _strerror_buffer (base (mem w ptd)));
  free strerror_buffer;;
  wcserror_buffer ← gets (fun w => _wcserror_buffer (base (mem w ptd)));
  free wcserror_buffer;;
  ExFreeToNPagedLookasideList buffer.

(** The table with the callbacks [__acrt_initialize_ptd] registers. *)
Definition table_lookup := RtlLookupElementGenericTableAvl __acrt_ptd_table_compare.
Definition table_insert :=
  RtlInsertElementGenericTableAvl __acrt_ptd_table_compare __acrt_ptd_table_allocate.
Definition table_delete :=
  RtlDeleteElementGenericTableAvl __acrt_ptd_table_compare __acrt_ptd_table_free.

(** A value-initialised [__acrt_ptd]: every byte zero. *)
Definition zero_ptd : acrt_ptd :=
  mkPtd 0 0 (replicate sizeof_acrt_ptd_rest 0).

(** [RtlSecureZeroMemory(p, sizeof __acrt_ptd)] on an [__acrt_ptd_km]: the
    base sub-object is filled with zeros, the members declared by
    [__acrt_ptd_km] lie behind it. *)
Definition RtlSecureZeroMemory_acrt_ptd (p : Z) : M unit :=
  modify (fun w =>
    set_mem (store p (mkPtdKm zero_ptd (tid (mem w p)) (uid (mem w p)))
                   (mem w)) w).

Definition store_and_initialize_ptd (current : ETHREAD) (ptd : acrt_ptd_km)
  : M (option Z) :=
  r ← table_insert ptd;
  match fst r with
  | None => ret None
  | Some new_ptd =>
      stored_uid ← gets (fun w => uid (mem w new_ptd));
      (* reuse outdated ptd. (tid == new_tid && uid != new_uid) *)
      if negb (__get_thread_uid current =? stored_uid)
      then RtlSecureZeroMemory_acrt_ptd new_ptd;; ret (Some new_ptd)
      else ret (Some new_ptd)
  end.

(** The [while (ptd)] loop of [__acrt_uninitialize_ptd]. *)
Fixpoint drain (fuel : nat) (ptd : option Z) : M unit :=
  match ptd with
  | None => ret tt
  | Some p =>
      match fuel with
      | O => fun _ => OutOfFuel
      | S fuel' =>
          element ← gets (fun w => mem w p);
          table_delete element;;
          next ← RtlGetElementGenericTableAvl 0;
          drain fuel' next
      end
  end.

Definition __acrt_uninitialize_ptd (fuel : nat) (_ : bool) : M bool :=
  ptd ← RtlGetElementGenericTableAvl 0;
  drain fuel ptd;;
  ExDeleteNPagedLookasideList;;
  ret true.

(** The [__acrt_ptd_km ptd{}] local the three entry points fill in. *)
Definition current_ptd (current : ETHREAD) : acrt_ptd_km :=
  mkPtdKm zero_ptd (PsGetCurrentThreadId current) (__get_thread_uid current).

Definition __acrt_initialize_ptd (fuel : nat) (current : ETHREAD) : M bool :=
  ExInitializeNPagedLookasideList;;
  KeInitializeSpinLock;;
  RtlInitializeGenericTableAvl;;
  stored ← store_and_initialize_ptd current (current_ptd current);
  match stored with
  | None => __acrt_uninitialize_ptd fuel false;; ret false
  | Some _ => ret true
  end.

Definition __acrt_getptd_noexit (current : ETHREAD) : M (option Z) :=
  let ptd := current_ptd current in
  KeAcquireInStackQueuedSpinLock;;
  found ← table_lookup ptd;
  existing_ptd ← match found with
                 | None =>
                     (* No per-thread data for this thread yet. *)
                     store_and_initialize_ptd current ptd
                 | Some _ => ret found
                 end;
  KeReleaseInStackQueuedSpinLock;;
  ret existing_ptd.

Definition __acrt_getptd (current : ETHREAD) : M Z :=
  ptd ← __acrt_getptd_noexit current;
  match ptd with
  | None => abort
  | Some p => ret p
  end.

Definition __acrt_freeptd (current : ETHREAD) : M unit :=
  let block_to_free := current_ptd current in
  KeAcquireInStackQueuedSpinLock;;
  table_delete block_to_free;;
  KeReleaseInStackQueuedSpinLock.
End Registry.


(** ** Vocabulary of the specification *)

Section Vocabulary.
Context `{Layout}.

#[local] Abbreviation cmp := __acrt_ptd_table_compare.
#[local] Abbreviation table := __acrt_startup_ptd_table.
#[local] Abbreviation pools := __acrt_startup_ptd_pools.
#[local] Abbreviation lock := __acrt_startup_ptd_table_lock.

(** The node the table holds under the id of [current], if any. *)
Definition find_current (current : ETHREAD) (w : world) : option Z :=
  find_node cmp (mem w) (current_ptd current) (table w).

(** The state after a new node [node] has been filled in and linked for
    [current]. *)
Definition linked (current : ETHREAD) (node : Z) (w : world) : world :=
  set_table (link_node cmp (mem w) (current_ptd current) node (table w))
    (set_mem (store (user_data node) (current_ptd current) (mem w)) w).

Definition free_heap (block : Z) (h : gset Z) : gset Z :=
  if block =? 0 then h else h ∖ {[block]}.

(** The state after the free callback has run on [node]. *)
Definition freed (node : Z) (cached : list Z) (w : world) : world :=
  let ptd := base (mem w (user_data node)) in
  set_pools (Some (node :: cached))
    (set_crt_heap
       (free_heap (_wcserror_buffer ptd)
          (free_heap (_strerror_buffer ptd) (crt_heap w))) w).

(** The state after [node] has been unlinked and freed. *)
Definition released (node : Z) (cached : list Z) (w : world) : world :=
  freed node cached (set_table (unlink_node node (table w)) w).

(** The free callback applied to a sequence of nodes. *)
Fixpoint free_nodes (nodes : list Z) : M unit :=
  match nodes with
  | [] => ret tt
  | node :: rest => __acrt_ptd_table_free node;; free_nodes rest
  end.

(** The CRT heap after the owned buffers of [nodes] have been freed. *)
Definition heap_after (m : Z -> acrt_ptd_km) (nodes : list Z) (h : gset Z)
  : gset Z :=
  foldl (fun h node =>
           free_heap (_wcserror_buffer (base (m (user_data node))))
             (free_heap (_strerror_buffer (base (m (user_data node)))) h))
        h nodes.

(** The state [__acrt_uninitialize_ptd] leaves behind. *)
Definition torn_down (cached : list Z) (w : world) : world :=
  set_pools None
    (set_nonpaged (reverse (table w) ++ cached ++ nonpaged w)
       (set_crt_heap (heap_after (mem w) (table w) (crt_heap w))
          (set_table [] w))).

(** The id stored in a node, and the table order it induces. *)
Definition node_tid (m : Z -> acrt_ptd_km) (node : Z) : Z :=
  tid (m (user_data node)).

Definition tid_lt (m : Z -> acrt_ptd_km) (a b : Z) : Prop :=
  node_tid m a < node_tid m b.

Definition ordered (m : Z -> acrt_ptd_km) (nodes : list Z) : Prop :=
  StronglySorted (tid_lt m) nodes.

Definition pool_entries (w : world) : list Z := default [] (pools w).

(** The buffers an allocation can still draw, in the order it draws them. *)
Definition free_buffers (w : world) : list Z := pool_entries w ++ nonpaged w.

(** The invariant of the registry: the lock is free between calls, no
    buffer is at two places, and the table is in the order of the ids. *)
Record consistent (w : world) : Prop := mkConsistent {
  lock_free : lock w = false;
  buffers_distinct : NoDup (table w ++ pool_entries w ++ nonpaged w);
  table_ordered : ordered (mem w) (table w)
}.

(** An initialised registry. *)
Definition ready (w : world) : Prop := consistent w /\ is_Some (pools w).

(** The owning thread rewrites the [__acrt_ptd] part of its block; the CRT
    heap changes as other code allocates and frees. *)
Definition owner_write (node : Z) (f : acrt_ptd -> acrt_ptd) (heap : gset Z)
    (w : world) : world :=
  let old := mem w (user_data node) in
  set_crt_heap heap
    (set_mem (store (user_data node)
                    (mkPtdKm (f (base old)) (tid old) (uid old)) (mem w)) w).

(** The statics at driver load. *)
Definition boot (w : world) : Prop :=
  table w = [] /\ pools w = None /\ lock w = false /\ NoDup (nonpaged w).

Inductive step : world -> world -> Prop :=
| step_initialize fuel current b w w' :
    __acrt_initialize_ptd fuel current w = Returned b w' -> step w w'
| step_uninitialize fuel flag b w w' :
    __acrt_uninitialize_ptd fuel flag w = Returned b w' -> step w w'
| step_getptd_noexit current r w w' :
    __acrt_getptd_noexit current w = Returned r w' -> step w w'
| step_getptd current p w w' :
    __acrt_getptd current w = Returned p w' -> step w w'
| step_freeptd current w w' :
    __acrt_freeptd current w = Returned tt w' -> step w w'
| step_owner node f heap w :
    node ∈ table w -> step w (owner_write node f heap w).

Inductive reachable : world -> Prop :=
| reachable_boot w : boot w -> reachable w
| reachable_step w w' : reachable w -> step w w' -> reachable w'.

(** A sequence of [__acrt_getptd_noexit] calls, one per listed thread. *)
Fixpoint calls (threads : list ETHREAD) : M (list (option Z)) :=
  match threads with
  | [] => ret []
  | current :: rest =>
      r ← __acrt_getptd_noexit current;
      rs ← calls rest;
      ret (r :: rs)
  end.

(** What a call by a thread returns once its outcome can no longer change:
    the block linked under its id, or nothing while no buffer is left. *)
Definition settled (current : ETHREAD) (r : option Z) (w : world) : Prop :=
  match r with
  | Some p => exists node, p = user_data node /\ find_current current w = Some node
  | None => find_current current w = None /\ free_buffers w = []
  end.

(** The identity of a thread as the registry sees it: id and token. *)
Definition identity (thread : ETHREAD) : Z * Z :=
  (PsGetCurrentThreadId thread, __get_thread_uid thread).

(** The identity stored in a node. *)
Definition stored_identity (w : world) (node : Z) : Z * Z :=
  (tid (mem w (user_data node)), uid (mem w (user_data node))).
End Vocabulary.

(** ** Sample states *)

(** x64: the node header is 32 bytes; four further bytes stand for the rest
    of [__acrt_ptd]. *)
Definition sample_layout : Layout := mkLayout 32 4.

Definition state_of {A : Type} (o : outcome A) (otherwise : world) : world :=
  match o with
  | Returned _ w => w
  | _ => otherwise
  end.

Definition value_of {A : Type} (o : outcome A) : option A :=
  match o with
  | Returned a _ => Some a
  | _ => None
  end.

Definition thread_p4_t8 : ETHREAD := mkThread (mkCid 4 8).
Definition thread_p12_t8 : ETHREAD := mkThread (mkCid 12 8).
Definition thread_p4_t16 : ETHREAD := mkThread (mkCid 4 16).
Definition thread_p4_t24 : ETHREAD := mkThread (mkCid 4 24).
Definition thread_p4_t32 : ETHREAD := mkThread (mkCid 4 32).

(** Memory that has never been written holds arbitrary bytes. *)
Definition fresh_memory : Z -> acrt_ptd_km :=
  fun _ => mkPtdKm (mkPtd 7 9 [1; 2; 3; 4]) 0 0.

(** Driver load, with three buffers left in the non-paged pool. *)
Definition boot_world : world :=
  mkWorld [1000; 2000; 3000] fresh_memory ∅ None [] false.

(** The registry initialised by thread 16 of process 4. *)
Definition started_world : world :=
  state_of (@__acrt_initialize_ptd sample_layout 0 thread_p4_t16 boot_world)
           boot_world.

(** Thread 8 of process 4 has obtained its block. *)
Definition joined_world : world :=
  state_of (@__acrt_getptd_noexit sample_layout thread_p4_t8 started_world)
           started_world.

(** ... and has filled it: two owned buffers and non-zero scratch bytes. *)
Definition dirty_world : world :=
  @owner_write sample_layout 2000 (fun _ => mkPtd 500 600 [1; 1; 1; 1])
               {[500; 600]} joined_world.

(** Every buffer is in use. *)
Definition full_world : world :=
  state_of (@__acrt_getptd_noexit sample_layout thread_p4_t24 joined_world)
           joined_world.


(** ** Using the registry between initialisation and teardown *)

Section Sessions.
Context `{Layout}.

#[local] Abbreviation table := __acrt_startup_ptd_table.

(** Every buffer the registry knows of: linked, cached or in the pool. *)
Definition all_buffers (w : world) : list Z :=
  table w ++ pool_entries w ++ nonpaged w.

(** One use of an initialised registry: a thread obtains or releases its
    block, or writes to the block it owns. *)
Inductive use : world -> world -> Prop :=
| use_getptd_noexit current r w w' :
    __acrt_getptd_noexit current w = Returned r w' -> use w w'
| use_getptd current p w w' :
    __acrt_getptd current w = Returned p w' -> use w w'
| use_freeptd current w w' :
    __acrt_freeptd current w = Returned tt w' -> use w w'
| use_owner node f heap w :
    node ∈ table w -> use w (owner_write node f heap w).
End Sessions.

(** ** PE image utilities (utility.cpp) *)

(** The constants of winnt.h the utilities compare against. *)
Class ImageConstants : Type := mkImageConstants {
  IMAGE_DOS_SIGNATURE : Z;
  IMAGE_NT_SIGNATURE : Z;
  IMAGE_NT_OPTIONAL_HDR_MAGIC : Z;
  IMAGE_SCN_MEM_WRITE : Z
}.

(** The fields the utilities read of the three header types. *)
Record IMAGE_DOS_HEADER : Type := mkDosHeader {
  e_magic : Z;
  e_lfanew : Z
}.

Record IMAGE_NT_HEADERS : Type := mkNtHeaders {
  Signature : Z;
  (** [FileHeader.NumberOfSections] *)
  NumberOfSections : Z;
  (** [OptionalHeader.Magic] *)
  Magic : Z
}.

Record IMAGE_SECTION_HEADER : Type := mkSectionHeader {
  VirtualAddress : Z;
  (** [Misc.VirtualSize] *)
  VirtualSize : Z;
  Characteristics : Z
}.

(** What a read through a header pointer yields: the header at an address,
    or nothing where the read raises an access violation.
    [section_at nt i] is element [i] of the section table that
    [IMAGE_FIRST_SECTION] locates behind the NT headers at [nt]. *)
Record address_space : Type := mkAddressSpace {
  dos_header_at : Z -> option IMAGE_DOS_HEADER;
  nt_headers_at : Z -> option IMAGE_NT_HEADERS;
  section_at : Z -> nat -> option IMAGE_SECTION_HEADER
}.

(** Code under structured exception handling: a value, or an access
    violation raised by a read. *)
Inductive seh (A : Type) : Type :=
| Value (a : A)
| AccessViolation.

Arguments Value {A} a.
Arguments AccessViolation {A}.

#[global] Instance seh_ret : MRet seh := @Value.
#[global] Instance seh_bind : MBind seh :=
  fun A B k m =>
    match m with
    | Value a => k a
    | AccessViolation => AccessViolation
    end.

Definition read {A : Type} (cell : option A) : seh A :=
  match cell with
  | Some a => Value a
  | None => AccessViolation
  end.

(** A 32-bit [DWORD] result. *)
Definition to_DWORD (x : Z) : Z := x mod 2 ^ 32.

Section ImageUtilities.
Context `{ImageConstants}.
Variable space : address_space.

(** [reinterpret_cast<PBYTE>(dos_header) + dos_header->e_lfanew] *)
Definition nt_header_address (image_base : Z) (dos_header : IMAGE_DOS_HEADER)
  : Z :=
  to_size_t (image_base + e_lfanew dos_header).

Definition is_potentially_valid_image_base (image_base : Z) : seh bool :=
  if image_base =? 0 then mret false
  else
    dos_header ← read (dos_header_at space image_base);
    if negb (e_magic dos_header =? IMAGE_DOS_SIGNATURE) then mret false
    else
      nt_header ←
        read (nt_headers_at space (nt_header_address image_base dos_header));
      if negb (Signature nt_header =? IMAGE_NT_SIGNATURE) then mret false
      else if negb (Magic nt_header =? IMAGE_NT_OPTIONAL_HDR_MAGIC)
      then mret false
      else mret true.

(** The test of the loop body: [rva] lies in the section.  The end of the
    section is a sum of two [DWORD]s. *)
Definition section_holds (section : IMAGE_SECTION_HEADER) (rva : Z) : bool :=
  (VirtualAddress section <=? rva)
  && (rva <? to_DWORD (VirtualAddress section + VirtualSize section)).

(** The [for] loop from element [it] of the table behind the NT headers at
    [nt], with [remaining] elements up to [last_section].  The pointer it
    returns is given by the table and the index of the element. *)
Fixpoint find_pe_section_from (nt : Z) (rva : Z) (remaining : nat) (it : nat)
  : seh (option (Z * nat)) :=
  match remaining with
  | O => mret None
  | S remaining' =>
      section ← read (section_at space nt it);
      if section_holds section rva then mret (Some (nt, it))
      else find_pe_section_from nt rva remaining' (S it)
  end.

Definition find_pe_section (image_base : Z) (rva : Z)
  : seh (option (Z * nat)) :=
  dos_header ← read (dos_header_at space image_base);
  let nt := nt_header_address image_base dos_header in
  nt_header ← read (nt_headers_at space nt);
  find_pe_section_from nt rva (Z.to_nat (NumberOfSections nt_header)) 0.

(** [__try { ... } __except (GetExceptionCode() == STATUS_ACCESS_VIOLATION)
    { return false; }] *)
Definition try_except_access_violation (body : seh bool) : bool :=
  match body with
  | Value result => result
  | AccessViolation => false
  end.

(** [ImageBase] is the address of [__ImageBase]. *)
Definition __scrt_is_nonwritable_in_current_image (ImageBase : Z) (target : Z)
  : bool :=
  try_except_access_violation
    (valid ← is_potentially_valid_image_base ImageBase;
     if negb valid then mret false
     else
       let rva_target := to_size_t (target - ImageBase) in
       section_header ← find_pe_section ImageBase rva_target;
       match section_header with
       | None => mret false
       | Some (nt, it) =>
           section ← read (section_at space nt it);
           if negb (Z.land (Characteristics section) IMAGE_SCN_MEM_WRITE =? 0)
           then mret false
           else mret true
       end).

(** The sections [from] .. [bound - 1] of the table behind [nt] can be read
    and none of them holds [rva]. *)
Definition none_holds (nt : Z) (rva : Z) (from bound : nat) : Prop :=
  forall j, (from <= j < bound)%nat ->
    exists section,
      section_at space nt j = Some section /\
      section_holds section rva = false.

(** The headers the validity test reads are readable and carry the three
    signatures. *)
Definition valid_headers (image_base : Z) (dos_header : IMAGE_DOS_HEADER)
    (nt_header : IMAGE_NT_HEADERS) : Prop :=
  image_base ≠ 0 /\
  dos_header_at space image_base = Some dos_header /\
  e_magic dos_header = IMAGE_DOS_SIGNATURE /\
  nt_headers_at space (nt_header_address image_base dos_header)
    = Some nt_header /\
  Signature nt_header = IMAGE_NT_SIGNATURE /\
  Magic nt_header = IMAGE_NT_OPTIONAL_HDR_MAGIC.
End ImageUtilities.

(** ** On-exit wrappers (utility.cpp) *)

(** [_crt_atexit] and [_crt_at_quick_exit] belong to the CRT's on-exit
    tables, whose code is elsewhere: they are taken as they come, as
    functions on the state of those tables that return an [int]. *)
Section OnExit.
Variable onexit_tables : Type.
Variable _crt_atexit : Z -> onexit_tables -> Z * onexit_tables.
Variable _crt_at_quick_exit : Z -> onexit_tables -> Z * onexit_tables.

Definition _onexit (function : Z) (s : onexit_tables) : Z * onexit_tables :=
  let (status, s') := _crt_atexit function s in
  (if status =? 0 then function else 0, s').

Definition atexit (function : Z) (s : onexit_tables) : Z * onexit_tables :=
  let (registered, s') := _onexit function s in
  (if negb (registered =? 0) then 0 else -1, s').

Definition at_quick_exit (function : Z) (s : onexit_tables)
  : Z * onexit_tables :=
  _crt_at_quick_exit function s.
End OnExit.

(** ** CRT start-up and shut-down (utility.cpp) *)

(** The calls [__scrt_initialize_crt] and [__scrt_uninitialize_crt] make to
    routines outside the file, in the order they are made; the two
    initialisers are recorded with what they returned. *)
Inductive crt_call : Type :=
| isa_available_init
| ExInitializeDriverRuntime
| scrt_initialize_system
| vcrt_initialize (returned : bool)
| acrt_initialize (returned : bool)
| vcrt_uninitialize (is_terminating : bool)
| acrt_uninitialize (is_terminating : bool).

Definition __scrt_initialize_memory (log : list crt_call) : list crt_call :=
  log ++ [ExInitializeDriverRuntime].

(** x64 build; [vcrt_ok] and [acrt_ok] are what [__vcrt_initialize] and
    [__acrt_initialize] return when they are called. *)
Definition __scrt_initialize_crt (vcrt_ok acrt_ok : bool)
    (log : list crt_call) : bool * list crt_call :=
  let log := log ++ [isa_available_init] in
  let log := __scrt_initialize_memory log in
  let log := log ++ [scrt_initialize_system] in
  let log := log ++ [vcrt_initialize vcrt_ok] in
  if negb vcrt_ok then (false, log)
  else
    let log := log ++ [acrt_initialize acrt_ok] in
    if negb acrt_ok then (false, log ++ [vcrt_uninitialize false])
    else (true, log).

Definition __scrt_uninitialize_crt (is_terminating from_exit : bool)
    (log : list crt_call) : bool * list crt_call :=
  (true, log ++ [acrt_uninitialize is_terminating;
                 vcrt_uninitialize is_terminating]).

(** The two CRT components, and the components that are up after a
    sequence of calls, the one brought up last first: [None] when a
    component is brought up twice, the AppCRT without the VCRuntime below it,
    or a component taken down that is not the one on top. *)
Inductive crt_component : Type := VCRuntime | AppCRT.

Fixpoint components_up (log : list crt_call) (up : list crt_component)
  : option (list crt_component) :=
  match log with
  | [] => Some up
  | call :: rest =>
      match call, up with
      | vcrt_initialize true, [] => components_up rest [VCRuntime]
      | vcrt_initialize true, _ => None
      | acrt_initialize true, [VCRuntime] =>
          components_up rest [AppCRT; VCRuntime]
      | acrt_initialize true, _ => None
      | vcrt_uninitialize _, [VCRuntime] => components_up rest []
      | vcrt_uninitialize _, _ => None
      | acrt_uninitialize _, [AppCRT; VCRuntime] =>
          components_up rest [VCRuntime]
      | acrt_uninitialize _, _ => None
      | _, _ => components_up rest up
      end
  end.

(** ** Thread id wrapper (per_thread_data.cpp) *)

(** [HandleToLong]: [(long)(LONG_PTR)h], the low 32 bits as a signed value. *)
Definition HandleToLong (h : Z) : Z := (h + 2 ^ 31) mod 2 ^ 32 - 2 ^ 31.

(** The result type is [unsigned long]. *)
Definition __threadid (current : ETHREAD) : Z :=
  to_DWORD (HandleToLong (PsGetCurrentThreadId current)).

(** ** Sample states for the sessions and the image utilities *)

(** Thread 8 of process 4 has released its block again. *)
Definition released_world : world :=
  state_of (@__acrt_freeptd sample_layout thread_p4_t8 dirty_world)
           dirty_world.

(** The registry initialised a second time while two blocks are linked. *)
Definition reinitialized_world : world :=
  state_of (@__acrt_initialize_ptd sample_layout 0 thread_p4_t16 dirty_world)
           dirty_world.

(** winnt.h, x64: 0x5A4D, 0x00004550, 0x20b and 0x80000000. *)
Definition sample_image_constants : ImageConstants :=
  mkImageConstants 23117 17744 523 2147483648.

(** An image at 0x140000000 with its NT headers at offset 0xF8 and three
    sections: code, read-only data and writable data. *)
Definition sample_image_base : Z := 5368709120.

Definition sample_dos_header : IMAGE_DOS_HEADER := mkDosHeader 23117 248.

Definition sample_nt_headers : IMAGE_NT_HEADERS := mkNtHeaders 17744 3 523.

Definition sample_text : IMAGE_SECTION_HEADER :=
  mkSectionHeader 4096 8192 1610612768.

Definition sample_rdata : IMAGE_SECTION_HEADER :=
  mkSectionHeader 12288 4096 1073741888.

Definition sample_data : IMAGE_SECTION_HEADER :=
  mkSectionHeader 16384 4096 3221225536.

Definition sample_space : address_space :=
  mkAddressSpace
    (fun a => if a =? sample_image_base then Some sample_dos_header else None)
    (fun a =>
       if a =? sample_image_base + 248 then Some sample_nt_headers else None)
    (fun nt i =>
       if nt =? sample_image_base + 248
       then [sample_text; sample_rdata; sample_data] !! i
       else None).


(** ** Tactics *)

(** Unfold the monad down to the state-passing functions. *)
Ltac unfold_monad :=
  unfold mbind, M_bind, bind, mret, M_ret, ret, gets, modify.

(** The three outcomes of the comparison callback, by its two tests. *)
Ltac compare_cases a b :=
  unfold __acrt_ptd_table_compare;
  destruct (Z.ltb_spec (tid a) (tid b)), (Z.gtb_spec (tid a) (tid b));
  split; intros; try discriminate; try lia; reflexivity.

(** Unfold one sequencing step only. *)
Ltac unfold_bind := unfold mbind, M_bind, bind.

Tactic Notation "unfold_bind" "in" hyp(H) := unfold mbind, M_bind, bind in H.

(** ** The identity resolver packs two identifiers *)

Lemma lor_disjoint_add (a b : Z) :
  0 <= b < 2 ^ 32 -> a mod 2 ^ 32 = 0 -> Z.lor a b = a + b.
Proof.
  intros Hb Ha.
  assert (Hland : Z.land a b = 0).
  { apply Z.bits_inj'. intros n Hn. rewrite Z.land_spec, Z.bits_0.
    destruct (Z_lt_ge_dec n 32) as [Hlt|Hge].
    - assert (Hbit : Z.testbit a n = false).
      { rewrite <- (Z.mod_pow2_bits_low a 32 n) by lia. rewrite Ha.
        apply Z.bits_0. }
      rewrite Hbit. reflexivity.
    - assert (Hbit : Z.testbit b n = false).
      { destruct (Z.eq_dec b 0) as [->|Hnz]; [apply Z.bits_0|].
        apply Z.bits_above_log2; [lia|].
        assert (Z.log2 b < 32) by (apply Z.log2_lt_pow2; lia). lia. }
      rewrite Hbit. apply andb_false_r. }
  rewrite <- Z.lxor_lor by exact Hland.
  symmetry. apply Z.add_nocarry_lxor. exact Hland.
Qed.

Lemma to_long_long_shifted (high : Z) :
  0 <= high < 2 ^ 32 ->
  to_long_long (high * 2 ^ 32) =
    if high <? 2 ^ 31 then high * 2 ^ 32 else high * 2 ^ 32 - 2 ^ 64.
Proof.
  intros Hh. unfold to_long_long.
  destruct (Z.ltb_spec high (2 ^ 31)) as [Hlt|Hge].
  - rewrite Z.mod_small by lia. lia.
  - rewrite <- (Z.mod_unique_pos (high * 2 ^ 32 + 2 ^ 63) (2 ^ 64) 1
                  (high * 2 ^ 32 + 2 ^ 63 - 2 ^ 64)) by lia.
    lia.
Qed.

Lemma get_thread_uid_eq (thread : ETHREAD) :
  let high := (to_size_t (UniqueProcess (Cid thread)) / 4) mod 2 ^ 32 in
  let low := (to_size_t (UniqueThread (Cid thread)) / 4) mod 2 ^ 32 in
  __get_thread_uid thread = to_long_long (high * 2 ^ 32) + low.
Proof.
  intros high low. unfold __get_thread_uid, PsGetThreadClientId, uint32_max.
  change (2 ^ 32 - 1) with (Z.ones 32).
  rewrite !Z.land_ones by lia. rewrite !Z.shiftr_div_pow2 by lia.
  rewrite Z.shiftl_mul_pow2 by lia. change (2 ^ 2) with 4.
  fold high low.
  assert (Hh : 0 <= high < 2 ^ 32) by (apply Z.mod_pos_bound; lia).
  apply lor_disjoint_add.
  - apply Z.mod_pos_bound. lia.
  - rewrite to_long_long_shifted by exact Hh.
    destruct (high <? 2 ^ 31).
    + apply Z.mod_mul. lia.
    + replace (high * 2 ^ 32 - 2 ^ 64) with ((high - 2 ^ 32) * 2 ^ 32) by lia.
      apply Z.mod_mul. lia.
Qed.

(** C8: the token is a total function of the thread's [CLIENT_ID] and lies
    in the range of a signed 64-bit integer.  Read as an unsigned 64-bit
    value, its upper 32 bits are the process identifier without its two
    lowest bits (truncated to 32 bits), and its lower 32 bits are the thread
    identifier without its two lowest bits (truncated to 32 bits). *)
Theorem get_thread_uid_packs (thread : ETHREAD) :
  let token := __get_thread_uid thread in
  let process := to_size_t (UniqueProcess (PsGetThreadClientId thread)) in
  let thread_id := to_size_t (UniqueThread (PsGetThreadClientId thread)) in
  - 2 ^ 63 <= token < 2 ^ 63 /\
  (token mod 2 ^ 64) / 2 ^ 32 = (process / 4) mod 2 ^ 32 /\
  (token mod 2 ^ 64) mod 2 ^ 32 = (thread_id / 4) mod 2 ^ 32.
Proof.
  intros token process thread_id. subst token.
  rewrite get_thread_uid_eq. unfold PsGetThreadClientId in *.
  fold process thread_id.
  set (high := (process / 4) mod 2 ^ 32).
  set (low := (thread_id / 4) mod 2 ^ 32).
  assert (Hh : 0 <= high < 2 ^ 32) by (apply Z.mod_pos_bound; lia).
  assert (Hl : 0 <= low < 2 ^ 32) by (apply Z.mod_pos_bound; lia).
  rewrite to_long_long_shifted by exact Hh.
  assert (Hunsigned :
    ((if high <? 2 ^ 31 then high * 2 ^ 32 else high * 2 ^ 32 - 2 ^ 64) + low)
      mod 2 ^ 64 = high * 2 ^ 32 + low).
  { destruct (Z.ltb_spec high (2 ^ 31)) as [Hlt|Hge].
    - apply Z.mod_small. lia.
    - symmetry. apply (Z.mod_unique_pos _ _ (-1)); lia. }
  rewrite Hunsigned. split; [|split].
  - destruct (Z.ltb_spec high (2 ^ 31)); lia.
  - symmetry. apply (Z.div_unique_pos _ _ high low); lia.
  - symmetry. apply (Z.mod_unique_pos _ _ high low); lia.
Qed.


(** ** Proofs *)

Section Proofs.
Context `{Layout}.

#[local] Abbreviation cmp := __acrt_ptd_table_compare.
#[local] Abbreviation table := __acrt_startup_ptd_table.
#[local] Abbreviation pools := __acrt_startup_ptd_pools.
#[local] Abbreviation lock := __acrt_startup_ptd_table_lock.

(** *** Memory *)

Lemma store_same a v m : store a v m a = v.
Proof. unfold store. by rewrite Z.eqb_refl. Qed.

Lemma store_other a b v m : b ≠ a -> store a v m b = m b.
Proof. unfold store. intros Hne. by destruct (Z.eqb_spec b a). Qed.

(** *** A call of [__acrt_getptd_noexit], as an equation on states *)

Lemma getptd_noexit_eq current w :
  lock w = false ->
  __acrt_getptd_noexit current w =
    match find_current current w with
    | Some node => Returned (Some (user_data node)) w
    | None =>
        match pools w with
        | None => BugCheck
        | Some (node :: cached) =>
            Returned (Some (user_data node))
                     (linked current node (set_pools (Some cached) w))
        | Some [] =>
            match nonpaged w with
            | node :: rest =>
                Returned (Some (user_data node))
                         (linked current node (set_nonpaged rest w))
            | [] => Returned None w
            end
        end
    end.
Proof.
  intros Hlock. unfold find_current. destruct w as [np m h p t l].
  simpl in *. subst l.
  unfold __acrt_getptd_noexit, mbind, M_bind, bind, mret, M_ret, ret,
    KeAcquireInStackQueuedSpinLock, table_lookup,
    RtlLookupElementGenericTableAvl, gets. simpl.
  destruct (find_node cmp m (current_ptd current) t) as [node|] eqn:Hfind;
    simpl; [reflexivity|].
  unfold store_and_initialize_ptd, table_insert,
    RtlInsertElementGenericTableAvl, __acrt_ptd_table_allocate,
    ExAllocateFromNPagedLookasideList. unfold_monad. simpl. rewrite Hfind.
  destruct p as [[|node cached]|]; simpl; [destruct np as [|node rest]; simpl| |];
    try reflexivity;
    rewrite store_same; simpl; rewrite Z.eqb_refl; reflexivity.
Qed.

(** *** The comparison callback and the order of the table *)

Lemma compare_eq a b : cmp a b = GenericEqual <-> tid a = tid b.
Proof. compare_cases a b. Qed.

Lemma compare_lt a b : cmp a b = GenericLessThan <-> tid a < tid b.
Proof. compare_cases a b. Qed.

Lemma compare_gt a b : cmp a b = GenericGreaterThan <-> tid b < tid a.
Proof. compare_cases a b. Qed.

Lemma find_node_Some m key nodes node :
  find_node cmp m key nodes = Some node ->
  node ∈ nodes /\ node_tid m node = tid key.
Proof.
  induction nodes as [|n rest IH]; simpl; [discriminate|].
  destruct (cmp key (m (user_data n))) eqn:Hc; intros Hf; try discriminate.
  - destruct (IH Hf) as [Hin Ht]. split; [by right|done].
  - inversion Hf; subst. split; [by left|].
    apply compare_eq in Hc. unfold node_tid. congruence.
Qed.

Lemma ordered_ext m m' nodes :
  (forall n, n ∈ nodes -> node_tid m' n = node_tid m n) ->
  ordered m nodes -> ordered m' nodes.
Proof.
  unfold ordered. induction nodes as [|n rest IH]; intros Hext Hs.
  - constructor.
  - apply StronglySorted_cons in Hs as [Hall Hs].
    apply StronglySorted_cons. split.
    + rewrite Forall_forall in *. intros x Hx. unfold tid_lt.
      rewrite !Hext by (by constructor). by apply Hall.
    + apply IH; [|done]. intros x Hx. apply Hext. by right.
Qed.

Lemma find_node_elem m key nodes node :
  ordered m nodes ->
  node ∈ nodes -> node_tid m node = tid key ->
  find_node cmp m key nodes = Some node.
Proof.
  induction nodes as [|n rest IH]; simpl; intros Hs Hin Ht.
  - by apply elem_of_nil in Hin.
  - apply StronglySorted_cons in Hs as [Hall Hs].
    apply elem_of_cons in Hin as [->|Hin].
    + assert (Hc : cmp key (m (user_data n)) = GenericEqual)
        by (apply compare_eq; unfold node_tid in Ht; congruence).
      by rewrite Hc.
    + assert (Hlt : node_tid m n < tid key).
      { rewrite Forall_forall in Hall. rewrite <- Ht. by apply Hall. }
      assert (Hc : cmp key (m (user_data n)) = GenericGreaterThan)
        by (apply compare_gt; exact Hlt).
      rewrite Hc. by apply IH.
Qed.

Lemma find_node_None m key nodes :
  ordered m nodes ->
  find_node cmp m key nodes = None ->
  forall node, node ∈ nodes -> node_tid m node ≠ tid key.
Proof.
  intros Hs Hf node Hin Ht.
  rewrite (find_node_elem m key nodes node Hs Hin Ht) in Hf. discriminate.
Qed.

Lemma ordered_NoDup m nodes : ordered m nodes -> NoDup (node_tid m <$> nodes).
Proof.
  induction nodes as [|n rest IH]; intros Hs; simpl; [constructor|].
  apply StronglySorted_cons in Hs as [Hall Hs].
  apply NoDup_cons. split; [|by apply IH].
  intros Hin. apply list_elem_of_fmap in Hin as (x & Hx & Hin).
  rewrite Forall_forall in Hall. specialize (Hall x Hin).
  unfold tid_lt in Hall. lia.
Qed.

Lemma link_node_perm m key new nodes :
  link_node cmp m key new nodes ≡ₚ new :: nodes.
Proof.
  induction nodes as [|n rest IH]; simpl; [done|].
  destruct (cmp key (m (user_data n))); try done.
  rewrite IH. apply perm_swap.
Qed.

Lemma link_node_ordered m m' key new nodes :
  ordered m nodes ->
  find_node cmp m key nodes = None ->
  node_tid m' new = tid key ->
  (forall n, n ∈ nodes -> node_tid m' n = node_tid m n) ->
  ordered m' (link_node cmp m key new nodes).
Proof.
  unfold ordered. induction nodes as [|n rest IH]; simpl; intros Hs Hf Hnew Hext.
  - repeat constructor.
  - pose proof Hs as Hs0.
    apply StronglySorted_cons in Hs as [Hall Hs].
    destruct (cmp key (m (user_data n))) eqn:Hc; try discriminate.
    + apply compare_lt in Hc.
      apply StronglySorted_cons. split.
      * rewrite Forall_forall in *. intros x Hx. unfold tid_lt.
        rewrite Hnew, Hext by done.
        apply elem_of_cons in Hx as [->|Hx]; [exact Hc|].
        specialize (Hall x Hx). unfold tid_lt, node_tid in *. lia.
      * by apply (ordered_ext m).
    + apply compare_gt in Hc.
      apply StronglySorted_cons. split.
      * rewrite Forall_forall in *. intros x Hx.
        rewrite link_node_perm in Hx. unfold tid_lt.
        rewrite (Hext n) by (by left).
        apply elem_of_cons in Hx as [->|Hx].
        -- rewrite Hnew. exact Hc.
        -- rewrite Hext by (by right). by apply Hall.
      * apply IH; try done. intros x Hx. apply Hext. by right.
Qed.

Lemma unlink_node_perm node nodes :
  node ∈ nodes -> nodes ≡ₚ node :: unlink_node node nodes.
Proof.
  induction nodes as [|n rest IH]; simpl; intros Hin.
  - by apply elem_of_nil in Hin.
  - destruct (Z.eqb_spec n node) as [->|Hne]; [done|].
    apply elem_of_cons in Hin as [->|Hin]; [done|].
    rewrite (IH Hin) at 1. apply perm_swap.
Qed.

Lemma unlink_node_subseteq node nodes x :
  x ∈ unlink_node node nodes -> x ∈ nodes.
Proof.
  induction nodes as [|n rest IH]; simpl; [done|].
  destruct (Z.eqb_spec n node) as [->|Hne]; intros Hx.
  - by right.
  - apply elem_of_cons in Hx as [->|Hx]; [by left|right; by apply IH].
Qed.

Lemma unlink_node_ordered m node nodes :
  ordered m nodes -> ordered m (unlink_node node nodes).
Proof.
  unfold ordered. induction nodes as [|n rest IH]; simpl; intros Hs; [done|].
  apply StronglySorted_cons in Hs as [Hall Hs].
  destruct (Z.eqb_spec n node) as [->|Hne]; [done|].
  apply StronglySorted_cons. split; [|by apply IH].
  rewrite Forall_forall in *. intros x Hx. apply Hall.
  by apply unlink_node_subseteq in Hx.
Qed.

(** *** Linking a node keeps the invariant *)

Lemma user_data_inj a b : user_data a = user_data b -> a = b.
Proof. unfold user_data. lia. Qed.

Lemma node_tid_store_same a v m : node_tid (store (user_data a) v m) a = tid v.
Proof. unfold node_tid. by rewrite store_same. Qed.

Lemma node_tid_store_other a n v m :
  n ≠ a -> node_tid (store (user_data a) v m) n = node_tid m n.
Proof.
  intros Hne. unfold node_tid. rewrite store_other; [done|].
  intros Heq. by apply user_data_inj in Heq.
Qed.

Lemma linked_consistent current node w :
  lock w = false ->
  NoDup (node :: table w ++ pool_entries w ++ nonpaged w) ->
  ordered (mem w) (table w) ->
  find_current current w = None ->
  consistent (linked current node w).
Proof.
  intros Hlock Hnd Hord Hfind.
  apply NoDup_cons in Hnd as [Hfresh Hnd].
  split; simpl; [done| |].
  - unfold pool_entries; simpl. fold (pool_entries w).
    rewrite link_node_perm. apply NoDup_cons; done.
  - apply (link_node_ordered (mem w)); try done.
    + apply node_tid_store_same.
    + intros n Hn. apply node_tid_store_other. intros ->.
      apply Hfresh. apply elem_of_app. by left.
Qed.

Lemma find_current_linked current node w :
  node ∉ table w ->
  ordered (mem w) (table w) ->
  find_current current w = None ->
  find_current current (linked current node w) = Some node.
Proof.
  intros Hfresh Hord Hfind. unfold find_current, linked; simpl.
  fold (find_current current w) in Hfind.
  apply find_node_elem.
  - apply (link_node_ordered (mem w)); try done.
    + apply node_tid_store_same.
    + intros n Hn. apply node_tid_store_other. by intros ->.
  - rewrite link_node_perm. by left.
  - apply node_tid_store_same.
Qed.

Lemma find_current_linked_other current other node w :
  node ∉ table w ->
  ordered (mem w) (table w) ->
  find_current current w = None ->
  PsGetCurrentThreadId other ≠ PsGetCurrentThreadId current ->
  find_current other (linked current node w) = find_current other w.
Proof.
  intros Hfresh Hord Hfind Hne.
  assert (Hord' : ordered (mem (linked current node w))
                          (table (linked current node w))).
  { simpl. apply (link_node_ordered (mem w)); try done.
    + apply node_tid_store_same.
    + intros n Hn. apply node_tid_store_other. by intros ->. }
  destruct (find_current other w) as [n|] eqn:Ho.
  - apply find_node_Some in Ho as [Hin Ht].
    apply find_node_elem; [done| |].
    + simpl. rewrite link_node_perm. by right.
    + simpl. rewrite node_tid_store_other; [done|by intros ->].
  - destruct (find_current other (linked current node w)) as [n|] eqn:Ho';
      [|done].
    apply find_node_Some in Ho' as [Hin Ht]. simpl in Hin, Ht.
    rewrite link_node_perm in Hin.
    apply elem_of_cons in Hin as [->|Hin].
    + rewrite node_tid_store_same in Ht. simpl in Ht. congruence.
    + rewrite node_tid_store_other in Ht by (by intros ->).
      by apply (find_node_None _ _ _ Hord Ho) in Hin.
Qed.

Lemma getptd_noexit_ready current w :
  ready w ->
  exists r w', __acrt_getptd_noexit current w = Returned r w' /\ ready w'.
Proof.
  intros [[Hlock Hnd Hord] [cached Hp]].
  rewrite getptd_noexit_eq by done.
  destruct (find_current current w) as [n|] eqn:Hfind.
  { eexists _, _. split; [done|]. by repeat split; eauto. }
  unfold pool_entries in Hnd. rewrite Hp in *. simpl in Hnd.
  destruct cached as [|node cached].
  - destruct (nonpaged w) as [|node rest] eqn:Hnp.
    + eexists _, _. split; [done|].
      repeat split; eauto. unfold pool_entries. by rewrite Hp, Hnp.
    + eexists _, _. split; [done|]. split; [|simpl; eauto].
      apply linked_consistent; try done.
      unfold pool_entries; simpl. rewrite Hp. simpl in *.
      eapply NoDup_Permutation_proper; [|exact Hnd].
      by rewrite Permutation_middle.
  - eexists _, _. split; [done|]. split; [|simpl; eauto].
    apply linked_consistent; try done.
    unfold pool_entries; simpl.
    eapply NoDup_Permutation_proper; [|exact Hnd].
    by rewrite Permutation_middle.
Qed.

(** *** Releasing, draining and initialising, as equations on states *)

Lemma table_free_eq node w :
  __acrt_ptd_table_free node w =
    match pools w with
    | None => BugCheck
    | Some cached => Returned tt (freed node cached w)
    end.
Proof.
  destruct w as [np m h p t l].
  unfold __acrt_ptd_table_free, ExFreeToNPagedLookasideList, free, freed,
    free_heap, user_data. unfold_monad.
  simpl.
  destruct (_strerror_buffer _ =? 0), (_wcserror_buffer _ =? 0), p; reflexivity.
Qed.


Lemma freeptd_eq current w :
  lock w = false ->
  __acrt_freeptd current w =
    match find_current current w with
    | None => Returned tt w
    | Some node =>
        match pools w with
        | None => BugCheck
        | Some cached => Returned tt (released node cached w)
        end
    end.
Proof.
  intros Hlock. unfold find_current. destruct w as [np m h p t l].
  simpl in *. subst l.
  unfold __acrt_freeptd, table_delete, RtlDeleteElementGenericTableAvl,
    KeAcquireInStackQueuedSpinLock. unfold_monad. simpl.
  destruct (find_node cmp m (current_ptd current) t) as [node|] eqn:Hfind;
    simpl; [|reflexivity].
  rewrite table_free_eq. simpl. destruct p; reflexivity.
Qed.

Lemma compare_refl x : cmp x x = GenericEqual.
Proof. by apply compare_eq. Qed.

Lemma drain_eq nodes : forall fuel w,
  table w = nodes -> (length nodes <= fuel)%nat ->
  drain fuel (user_data <$> nodes !! 0%nat) w = free_nodes nodes (set_table [] w).
Proof.
  induction nodes as [|node rest IH]; intros fuel w Ht Hfuel.
  - destruct w, fuel; simpl in *; subst; reflexivity.
  - destruct fuel as [|fuel]; [simpl in Hfuel; lia|].
    simpl in Hfuel.
    change (drain (S fuel) (user_data <$> (node :: rest) !! 0%nat) w)
      with ((element ← gets (fun w => mem w (user_data node));
             table_delete element;;
             next ← RtlGetElementGenericTableAvl 0;
             drain fuel next) w).
    unfold table_delete, RtlDeleteElementGenericTableAvl,
      RtlGetElementGenericTableAvl. unfold_monad.
    rewrite Ht.
    assert (Hfind : find_node cmp (mem w) (mem w (user_data node))
                      (node :: rest) = Some node)
      by (simpl; by rewrite compare_refl).
    rewrite Hfind, Ht. simpl unlink_node. rewrite Z.eqb_refl.
    simpl free_nodes. unfold_bind.
    rewrite !table_free_eq. simpl pools.
    destruct (pools w) as [cached|] eqn:Hp; [|reflexivity].
    rewrite IH by (simpl; lia || done).
    reflexivity.
Qed.

Lemma uninitialize_eq fuel b w :
  (length (table w) <= fuel)%nat ->
  __acrt_uninitialize_ptd fuel b w =
    (free_nodes (table w);; ExDeleteNPagedLookasideList;; ret true)
      (set_table [] w).
Proof.
  intros Hfuel. unfold __acrt_uninitialize_ptd.
  unfold RtlGetElementGenericTableAvl, mbind, M_bind, bind, gets at 1.
  by rewrite drain_eq.
Qed.

Lemma free_nodes_eq nodes : forall w cached,
  pools w = Some cached ->
  free_nodes nodes w =
    Returned tt (set_pools (Some (reverse nodes ++ cached))
                   (set_crt_heap (heap_after (mem w) nodes (crt_heap w)) w)).
Proof.
  induction nodes as [|node rest IH]; intros w cached Hp.
  - simpl. destruct w; simpl in *; subst; reflexivity.
  - simpl. unfold_bind. rewrite table_free_eq, Hp.
    rewrite (IH _ (node :: cached)) by reflexivity.
    rewrite reverse_cons, <- app_assoc. destruct w; reflexivity.
Qed.

Lemma uninitialize_torn_down fuel b w cached :
  pools w = Some cached ->
  (length (table w) <= fuel)%nat ->
  __acrt_uninitialize_ptd fuel b w = Returned true (torn_down cached w).
Proof.
  intros Hp Hfuel. rewrite uninitialize_eq by done.
  unfold_bind.
  rewrite (free_nodes_eq _ _ cached) by done.
  unfold ExDeleteNPagedLookasideList, torn_down. simpl.
  by rewrite <- app_assoc.
Qed.

Lemma initialize_eq fuel current w :
  __acrt_initialize_ptd fuel current w =
    match nonpaged w with
    | [] => Returned false (set_pools None (set_table [] (set_lock false w)))
    | node :: rest =>
        Returned true
          (linked current node
             (set_nonpaged rest
                (set_pools (Some []) (set_table [] (set_lock false w)))))
    end.
Proof.
  destruct w as [np m h p t l].
  unfold __acrt_initialize_ptd, ExInitializeNPagedLookasideList,
    KeInitializeSpinLock, RtlInitializeGenericTableAvl,
    store_and_initialize_ptd, table_insert, RtlInsertElementGenericTableAvl,
    __acrt_ptd_table_allocate, ExAllocateFromNPagedLookasideList.
  unfold_monad. simpl.
  destruct np as [|node rest]; simpl.
  - unfold __acrt_uninitialize_ptd, RtlGetElementGenericTableAvl,
      ExDeleteNPagedLookasideList. unfold_monad.
    simpl. destruct fuel; reflexivity.
  - rewrite store_same. simpl. rewrite Z.eqb_refl. reflexivity.
Qed.

(** *** Every reachable state is consistent *)

Lemma getptd_noexit_consistent current w r w' :
  consistent w ->
  __acrt_getptd_noexit current w = Returned r w' ->
  consistent w' /\ (is_Some (pools w) -> is_Some (pools w')).
Proof.
  intros Hc Hrun.
  destruct (pools w) as [cached|] eqn:Hp.
  - destruct (getptd_noexit_ready current w) as (r0 & w0 & Hrun0 & Hc0 & Hp0);
      [split; eauto|].
    rewrite Hrun in Hrun0. inversion Hrun0; subst. done.
  - destruct Hc as [Hlock Hnd Hord].
    rewrite getptd_noexit_eq, Hp in Hrun by done.
    destruct (find_current current w); [|discriminate].
    inversion Hrun; subst. split; [done|]. rewrite Hp. by intros [? ?].
Qed.

Lemma getptd_returned current w p w' :
  __acrt_getptd current w = Returned p w' ->
  __acrt_getptd_noexit current w = Returned (Some p) w'.
Proof.
  unfold __acrt_getptd. unfold_bind.
  destruct (__acrt_getptd_noexit current w) as [[q|] w0| | | |]; try discriminate.
  by inversion 1.
Qed.

Lemma released_consistent node cached w :
  consistent w -> pools w = Some cached -> node ∈ table w ->
  consistent (released node cached w).
Proof.
  intros [Hlock Hnd Hord] Hp Hin. split; simpl; [done| |].
  - unfold pool_entries in *. rewrite Hp in Hnd. simpl in *.
    assert (Hperm : unlink_node node (table w) ++ node :: cached ++ nonpaged w
                      ≡ₚ table w ++ cached ++ nonpaged w).
    { rewrite <- Permutation_middle.
      change ((node :: unlink_node node (table w)) ++ cached ++ nonpaged w
                ≡ₚ table w ++ cached ++ nonpaged w).
      by rewrite <- unlink_node_perm. }
    by rewrite Hperm.
  - by apply unlink_node_ordered.
Qed.

Lemma freeptd_consistent current w w' :
  consistent w ->
  __acrt_freeptd current w = Returned tt w' ->
  consistent w' /\ (is_Some (pools w) -> is_Some (pools w')).
Proof.
  intros Hc Hrun. pose proof Hc as [Hlock Hnd Hord].
  rewrite freeptd_eq in Hrun by done.
  destruct (find_current current w) as [node|] eqn:Hfind.
  - destruct (pools w) as [cached|] eqn:Hp; [|discriminate].
    inversion Hrun; subst. split; [|simpl; eauto].
    apply released_consistent; try done.
    by apply find_node_Some in Hfind as [? _].
  - inversion Hrun; subst. done.
Qed.

Lemma initialize_consistent fuel current w b w' :
  NoDup (nonpaged w) ->
  __acrt_initialize_ptd fuel current w = Returned b w' ->
  consistent w'.
Proof.
  intros Hnd. rewrite initialize_eq.
  destruct (nonpaged w) as [|node rest] eqn:Hnp; inversion 1; subst.
  - split; simpl; [done| |constructor].
    unfold pool_entries; simpl. rewrite Hnp. constructor.
  - apply linked_consistent; simpl; try done. constructor.
Qed.

Lemma drain_mono fuel : forall ptd w r w',
  drain fuel ptd w = Returned r w' ->
  forall fuel', (fuel <= fuel')%nat -> drain fuel' ptd w = Returned r w'.
Proof.
  induction fuel as [|fuel IH]; intros ptd w r w' Hrun fuel' Hle.
  - destruct ptd; [discriminate|]. by destruct fuel'.
  - destruct ptd as [p|]; [|by destruct fuel'].
    destruct fuel' as [|fuel']; [lia|].
    simpl in Hrun |- *. unfold_bind in Hrun; unfold_bind.
    destruct (gets (fun w => mem w p) w) as [e w1| | | |]; try discriminate.
    destruct (table_delete e w1) as [d w2| | | |]; try discriminate.
    destruct (RtlGetElementGenericTableAvl 0 w2) as [n w3| | | |];
      try discriminate.
    apply IH; [done|lia].
Qed.

Lemma uninitialize_mono fuel fuel' flag w r w' :
  __acrt_uninitialize_ptd fuel flag w = Returned r w' ->
  (fuel <= fuel')%nat ->
  __acrt_uninitialize_ptd fuel' flag w = Returned r w'.
Proof.
  unfold __acrt_uninitialize_ptd. unfold_bind. intros Hrun Hle.
  destruct (RtlGetElementGenericTableAvl 0 w) as [p w1| | | |]; try discriminate.
  destruct (drain fuel p w1) as [u w2| | | |] eqn:Hd; try discriminate.
  by rewrite (drain_mono _ _ _ _ _ Hd fuel' Hle).
Qed.

Lemma free_nodes_pools nodes : forall w u w',
  free_nodes nodes w = Returned u w' -> is_Some (pools w) \/ nodes = [].
Proof.
  destruct nodes as [|node rest]; intros w u w'; [by right|].
  simpl. unfold_bind. rewrite table_free_eq.
  destruct (pools w); [by left; eauto|discriminate].
Qed.

Lemma uninitialize_returned fuel flag w r w' :
  __acrt_uninitialize_ptd fuel flag w = Returned r w' ->
  exists cached, pools w = Some cached /\ r = true /\ w' = torn_down cached w.
Proof.
  intros Hrun.
  apply (uninitialize_mono _ (max fuel (length (table w)))) in Hrun; [|lia].
  destruct (pools w) as [cached|] eqn:Hp.
  - rewrite (uninitialize_torn_down _ _ _ cached) in Hrun by (done || lia).
    inversion Hrun; subst. eauto.
  - rewrite uninitialize_eq in Hrun by lia.
    unfold_bind in Hrun.
    destruct (free_nodes (table w) (set_table [] w)) as [u w1| | | |] eqn:Hf;
      try discriminate.
    destruct (free_nodes_pools _ _ _ _ Hf) as [[c Hc]|Hnil].
    + simpl in Hc. congruence.
    + rewrite Hnil in Hf. simpl in Hf. inversion Hf; subst.
      unfold ExDeleteNPagedLookasideList in Hrun. simpl in Hrun.
      rewrite Hp in Hrun. discriminate.
Qed.

Lemma torn_down_consistent cached w :
  consistent w -> pools w = Some cached -> consistent (torn_down cached w).
Proof.
  intros [Hlock Hnd Hord] Hp. split; simpl; [done| |constructor].
  unfold pool_entries in *. rewrite Hp in Hnd. simpl in *.
  eapply NoDup_Permutation_proper; [|exact Hnd].
  by rewrite reverse_Permutation.
Qed.

Lemma consistent_nonpaged w : consistent w -> NoDup (nonpaged w).
Proof.
  intros [_ Hnd _]. rewrite !NoDup_app in Hnd. tauto.
Qed.

Lemma owner_write_consistent node f heap w :
  consistent w -> consistent (owner_write node f heap w).
Proof.
  intros [Hlock Hnd Hord]. split; simpl; [done..|].
  apply (ordered_ext (mem w)); [|done].
  intros n _. unfold node_tid, store.
  by destruct (Z.eqb_spec (user_data n) (user_data node)) as [->|].
Qed.

Lemma step_consistent w w' : consistent w -> step w w' -> consistent w'.
Proof.
  intros Hc Hstep. destruct Hstep.
  - eapply initialize_consistent; [|done]. by apply consistent_nonpaged.
  - apply uninitialize_returned in H0 as (cached & Hp & _ & ->).
    by apply torn_down_consistent.
  - by eapply getptd_noexit_consistent.
  - apply getptd_returned in H0. by eapply getptd_noexit_consistent.
  - by eapply freeptd_consistent.
  - by apply owner_write_consistent.
Qed.

Lemma boot_consistent w : boot w -> consistent w.
Proof.
  intros (Ht & Hp & Hl & Hnd). split; [done| |].
  - unfold pool_entries. by rewrite Ht, Hp.
  - rewrite Ht. constructor.
Qed.

Lemma reachable_consistent w : reachable w -> consistent w.
Proof.
  induction 1; [by apply boot_consistent|by eapply step_consistent].
Qed.

(** *** Sequences of calls *)

Lemma compare_tid a a' b :
  tid a = tid a' -> cmp a b = cmp a' b.
Proof. unfold cmp. by intros ->. Qed.

Lemma find_node_tid m key key' nodes :
  tid key = tid key' ->
  find_node cmp m key nodes = find_node cmp m key' nodes.
Proof.
  intros Ht. induction nodes as [|n rest IH]; simpl; [done|].
  by rewrite (compare_tid key key' _ Ht), IH.
Qed.

Lemma find_current_tid current other w :
  PsGetCurrentThreadId current = PsGetCurrentThreadId other ->
  find_current current w = find_current other w.
Proof. intros Ht. by apply find_node_tid. Qed.

(** A miss with a buffer available: the head of the free buffers becomes
    the thread's block. *)
Lemma getptd_noexit_miss current w node rest :
  ready w ->
  find_current current w = None ->
  free_buffers w = node :: rest ->
  exists w',
    __acrt_getptd_noexit current w = Returned (Some (user_data node)) w' /\
    ready w' /\
    free_buffers w' = rest /\
    table w' ≡ₚ node :: table w /\
    find_current current w' = Some node /\
    mem w' (user_data node) = current_ptd current /\
    forall other,
      PsGetCurrentThreadId other ≠ PsGetCurrentThreadId current ->
      find_current other w' = find_current other w.
Proof.
  intros [Hc [cached Hp]] Hfind Hfree.
  pose proof Hc as [Hlock Hnd Hord].
  destruct (getptd_noexit_ready current w) as (r & w' & Hrun & Hready);
    [split; eauto|].
  exists w'. rewrite Hrun. rewrite getptd_noexit_eq, Hfind, Hp in Hrun by done.
  unfold free_buffers, pool_entries in Hfree, Hnd. rewrite Hp in Hfree, Hnd.
  simpl in Hfree, Hnd.
  assert (Hfresh : node ∉ table w).
  { intros Hin. rewrite Hfree in Hnd. apply NoDup_app in Hnd as (_ & Hdis & _).
    apply (Hdis node Hin). by left. }
  destruct cached as [|c cached]; simpl in Hfree.
  - rewrite Hfree in Hrun. inversion Hrun; subst r w'.
    split; [done|]. split; [done|]. split.
    { unfold free_buffers, pool_entries. simpl. by rewrite Hp. }
    split; [by apply link_node_perm|].
    split; [by apply find_current_linked|].
    split; [simpl; apply store_same|].
    intros other Hne. by rewrite find_current_linked_other.
  - inversion Hfree; subst c rest. inversion Hrun; subst r w'.
    split; [done|]. split; [done|]. split; [done|].
    split; [by apply link_node_perm|].
    split; [by apply find_current_linked|].
    split; [simpl; apply store_same|].
    intros other Hne. by rewrite find_current_linked_other.
Qed.

Lemma ready_exhausted w :
  ready w -> free_buffers w = [] -> pools w = Some [] /\ nonpaged w = [].
Proof.
  intros [_ [cached Hp]]. unfold free_buffers, pool_entries. rewrite Hp. simpl.
  intros Hnil. apply app_eq_nil in Hnil as [-> ->]. done.
Qed.

Lemma getptd_noexit_settled current other r w :
  ready w -> settled current r w ->
  PsGetCurrentThreadId other = PsGetCurrentThreadId current ->
  __acrt_getptd_noexit other w = Returned r w.
Proof.
  intros Hready Hs Ht. pose proof Hready as [[Hlock _ _] _].
  rewrite getptd_noexit_eq, (find_current_tid other current) by done.
  destruct r as [p|]; simpl in Hs.
  - destruct Hs as (node & -> & ->). done.
  - destruct Hs as [-> Hnil].
    by destruct (ready_exhausted w Hready Hnil) as [-> ->].
Qed.

Lemma getptd_noexit_settles current r w w' :
  ready w ->
  __acrt_getptd_noexit current w = Returned r w' ->
  settled current r w'.
Proof.
  intros Hready Hrun.
  destruct (find_current current w) as [node|] eqn:Hfind.
  - pose proof Hready as [[Hlock _ _] _].
    rewrite getptd_noexit_eq, Hfind in Hrun by done.
    inversion Hrun; subst. simpl. eauto.
  - destruct (free_buffers w) as [|node rest] eqn:Hfree.
    + pose proof Hready as [[Hlock _ _] _].
      destruct (ready_exhausted w Hready Hfree) as [Hp Hnp].
      rewrite getptd_noexit_eq, Hfind, Hp, Hnp in Hrun by done.
      inversion Hrun; subst. done.
    + destruct (getptd_noexit_miss current w node rest)
        as (w0 & Hrun0 & _ & _ & _ & Hf & _); try done.
      rewrite Hrun in Hrun0. inversion Hrun0; subst. simpl. eauto.
Qed.

Lemma getptd_noexit_keeps_settled current other r r' w w' :
  ready w -> settled current r w ->
  __acrt_getptd_noexit other w = Returned r' w' ->
  settled current r w'.
Proof.
  intros Hready Hs Hrun.
  destruct (find_current other w) as [node|] eqn:Hfind.
  - pose proof Hready as [[Hlock _ _] _].
    rewrite getptd_noexit_eq, Hfind in Hrun by done.
    by inversion Hrun; subst.
  - destruct (free_buffers w) as [|node rest] eqn:Hfree.
    + pose proof Hready as [[Hlock _ _] _].
      destruct (ready_exhausted w Hready Hfree) as [Hp Hnp].
      rewrite getptd_noexit_eq, Hfind, Hp, Hnp in Hrun by done.
      by inversion Hrun; subst.
    + destruct (getptd_noexit_miss other w node rest)
        as (w0 & Hrun0 & _ & _ & _ & _ & _ & Hother); try done.
      rewrite Hrun in Hrun0. inversion Hrun0; subst.
      destruct r as [p|]; simpl in Hs |- *.
      * destruct Hs as (n & -> & Hf). exists n. split; [done|].
        rewrite Hother; [done|]. intros Heq.
        rewrite (find_current_tid current other) in Hf by done. congruence.
      * destruct Hs as [_ Hnil]. congruence.
Qed.

Lemma calls_ready threads : forall w,
  ready w ->
  exists rs w', calls threads w = Returned rs w' /\ ready w' /\
                length rs = length threads.
Proof.
  induction threads as [|t rest IH]; intros w Hready.
  - by exists [], w.
  - destruct (getptd_noexit_ready t w Hready) as (r & w1 & Hrun & Hready1).
    destruct (IH w1 Hready1) as (rs & w' & Hrest & Hready' & Hlen).
    exists (r :: rs), w'. simpl. unfold_bind.
    rewrite Hrun, Hrest. simpl. eauto.
Qed.

Lemma calls_cons current rest w rs w' :
  calls (current :: rest) w = Returned rs w' ->
  exists r w1 rs',
    __acrt_getptd_noexit current w = Returned r w1 /\
    calls rest w1 = Returned rs' w' /\ rs = r :: rs'.
Proof.
  simpl. unfold_bind.
  destruct (__acrt_getptd_noexit current w) as [r w1| | | |]; try discriminate.
  destruct (calls rest w1) as [rs' w2| | | |] eqn:Hrest; try discriminate.
  inversion 1; subst.
  exists r, w1, rs'. done.
Qed.

Lemma calls_settled current r threads : forall w rs w',
  ready w -> settled current r w ->
  calls threads w = Returned rs w' ->
  forall j other,
    threads !! j = Some other ->
    PsGetCurrentThreadId other = PsGetCurrentThreadId current ->
    rs !! j = Some r.
Proof.
  induction threads as [|t rest IH]; intros w rs w' Hready Hs Hrun j other Hj Ht.
  - by rewrite lookup_nil in Hj.
  - apply calls_cons in Hrun as (r0 & w1 & rs' & Hrun0 & Hrest & ->).
    destruct (getptd_noexit_ready t w Hready) as (r1 & w2 & Hrun1 & Hready1).
    rewrite Hrun0 in Hrun1. inversion Hrun1; subst r1 w2.
    destruct j as [|j]; simpl in Hj |- *.
    + inversion Hj; subst t.
      rewrite (getptd_noexit_settled current other r w) in Hrun0 by done.
      by inversion Hrun0.
    + exact (IH w1 rs' w' Hready1
               (getptd_noexit_keeps_settled current t r r0 w w1 Hready Hs Hrun0)
               Hrest j other Hj Ht).
Qed.

Lemma calls_same_thread threads : forall w rs w',
  ready w ->
  calls threads w = Returned rs w' ->
  forall i j ti tj,
    threads !! i = Some ti -> threads !! j = Some tj ->
    PsGetCurrentThreadId ti = PsGetCurrentThreadId tj ->
    rs !! i = rs !! j.
Proof.
  induction threads as [|t rest IH]; intros w rs w' Hready Hrun i j ti tj Hi Hj Ht.
  - by rewrite lookup_nil in Hi.
  - apply calls_cons in Hrun as (r0 & w1 & rs' & Hrun0 & Hrest & ->).
    destruct (getptd_noexit_ready t w Hready) as (r1 & w2 & Hrun1 & Hready1).
    rewrite Hrun0 in Hrun1. inversion Hrun1; subst r1 w2.
    pose proof (getptd_noexit_settles t r0 w w1 Hready Hrun0) as Hs.
    destruct i as [|i], j as [|j]; simpl in Hi, Hj |- *.
    + done.
    + inversion Hi; subst t. symmetry.
      exact (calls_settled ti r0 rest w1 rs' w' Hready1 Hs Hrest j tj Hj
               (eq_sym Ht)).
    + inversion Hj; subst t.
      exact (calls_settled tj r0 rest w1 rs' w' Hready1 Hs Hrest i ti Hi Ht).
    + exact (IH w1 rs' w' Hready1 Hrest i j ti tj Hi Hj Ht).
Qed.

Lemma calls_fresh threads : forall w,
  ready w ->
  NoDup (PsGetCurrentThreadId <$> threads) ->
  (forall t, t ∈ threads -> find_current t w = None) ->
  (length threads <= length (free_buffers w))%nat ->
  exists w',
    calls threads w =
      Returned ((Some ∘ user_data) <$> take (length threads) (free_buffers w)) w' /\
    ready w' /\
    length (table w') = (length (table w) + length threads)%nat.
Proof.
  induction threads as [|t rest IH]; intros w Hready Hnd Hmiss Hlen.
  - exists w. simpl. split; [done|]. split; [done|lia].
  - destruct (free_buffers w) as [|node bufs] eqn:Hfree; [simpl in Hlen; lia|].
    destruct (getptd_noexit_miss t w node bufs)
      as (w1 & Hrun & Hready1 & Hfree1 & Hperm & _ & _ & Hother); try done.
    { apply Hmiss. by left. }
    simpl in Hnd. apply NoDup_cons in Hnd as [Hnotin Hnd].
    destruct (IH w1) as (w' & Hrest & Hready' & Hlen'); try done.
    + intros t' Hin. rewrite Hother; [apply Hmiss; by right|].
      intros Heq. apply Hnotin. rewrite <- Heq. by apply list_elem_of_fmap_2.
    + rewrite Hfree1. simpl in Hlen. lia.
    + exists w'. simpl. unfold_bind.
      rewrite Hrun, Hrest, Hfree1. simpl. split; [done|]. split; [done|].
      rewrite Hlen', Hperm. simpl. lia.
Qed.


(** *** Auxiliary facts *)

Lemma getptd_noexit_hit current w node :
  lock w = false ->
  find_current current w = Some node ->
  __acrt_getptd_noexit current w = Returned (Some (user_data node)) w.
Proof. intros Hlock Hfind. by rewrite getptd_noexit_eq, Hfind. Qed.

Lemma unlink_node_not_elem node nodes :
  NoDup nodes -> node ∉ unlink_node node nodes.
Proof.
  intros Hnd Hin.
  assert (Hnode : node ∈ nodes) by (by apply unlink_node_subseteq in Hin).
  rewrite (unlink_node_perm node nodes Hnode) in Hnd.
  by apply NoDup_cons in Hnd as [Hnotin _].
Qed.

Lemma consistent_table_NoDup w : consistent w -> NoDup (table w).
Proof. intros [_ Hnd _]. by apply NoDup_app in Hnd as [Hnd _]. Qed.

Lemma consistent_free_buffers_NoDup w : consistent w -> NoDup (free_buffers w).
Proof. intros [_ Hnd _]. by apply NoDup_app in Hnd as (_ & _ & Hnd). Qed.

Lemma find_current_released current node cached w :
  consistent w ->
  find_current current w = Some node ->
  find_current current (released node cached w) = None.
Proof.
  intros Hc Hfind. pose proof Hc as [_ _ Hord].
  destruct (find_current current (released node cached w)) as [n|] eqn:Hn;
    [|done].
  apply find_node_Some in Hn as [Hin Ht]. simpl in Hin, Ht.
  assert (Hn : find_current current w = Some n).
  { apply find_node_elem; [done| |done]. by apply unlink_node_subseteq in Hin. }
  rewrite Hfind in Hn. inversion Hn; subst n.
  by apply unlink_node_not_elem in Hin; [|apply consistent_table_NoDup].
Qed.

Lemma free_heap_elem block h x :
  x ∈ free_heap block h -> x ∈ h /\ (x ≠ 0 -> x ≠ block).
Proof.
  unfold free_heap. destruct (Z.eqb_spec block 0) as [->|Hne]; [done|].
  intros Hx. apply elem_of_difference in Hx as [Hx Hnotin].
  split; [done|]. intros _ ->. apply Hnotin. by apply elem_of_singleton.
Qed.

Lemma heap_after_elem m nodes : forall h x,
  x ∈ heap_after m nodes h ->
  x ∈ h /\
  forall node, node ∈ nodes -> x ≠ 0 ->
    x ≠ _strerror_buffer (base (m (user_data node))) /\
    x ≠ _wcserror_buffer (base (m (user_data node))).
Proof.
  induction nodes as [|n rest IH]; intros h x Hx; simpl in Hx.
  - split; [done|]. intros node Hin. by apply elem_of_nil in Hin.
  - apply IH in Hx as [Hx Hrest].
    apply free_heap_elem in Hx as [Hx Hw].
    apply free_heap_elem in Hx as [Hx Hs].
    split; [done|]. intros node Hin Hnz.
    apply elem_of_cons in Hin as [->|Hin]; [|by apply Hrest].
    split; [by apply Hs|by apply Hw].
Qed.

Lemma released_not_live node cached w block :
  block ≠ 0 ->
  block = _strerror_buffer (base (mem w (user_data node))) \/
  block = _wcserror_buffer (base (mem w (user_data node))) ->
  block ∉ crt_heap (released node cached w).
Proof.
  intros Hnz Hblock Hin. simpl in Hin.
  apply free_heap_elem in Hin as [Hin Hw].
  apply free_heap_elem in Hin as [_ Hs].
  destruct Hblock as [Hb|Hb]; [by apply Hs|by apply Hw].
Qed.

(** *** Properties of the registry *)

Lemma table_delete_not_aborted key w : table_delete key w ≠ Aborted.
Proof.
  unfold table_delete, RtlDeleteElementGenericTableAvl. unfold_monad.
  destruct (find_node cmp (mem w) key (table w)); [|done].
  rewrite table_free_eq. simpl. by destruct (pools w).
Qed.

Lemma drain_not_aborted fuel : forall ptd w, drain fuel ptd w ≠ Aborted.
Proof.
  induction fuel as [|fuel IH]; intros [p|] w; try done.
  simpl. unfold_bind. unfold gets at 1.
  pose proof (table_delete_not_aborted (mem w p) w) as Hdelete.
  destruct (table_delete (mem w p) w) as [d w1| | | |]; try done.
  unfold RtlGetElementGenericTableAvl, gets. apply IH.
Qed.

Lemma uninitialize_not_aborted fuel flag w :
  __acrt_uninitialize_ptd fuel flag w ≠ Aborted.
Proof.
  unfold __acrt_uninitialize_ptd, RtlGetElementGenericTableAvl. unfold_bind.
  unfold gets at 1.
  pose proof (drain_not_aborted fuel
                (user_data <$> table w !! 0%nat) w) as Hdrain.
  destruct (drain fuel (user_data <$> table w !! 0%nat) w)
    as [u w1| | | |]; try done.
  unfold ExDeleteNPagedLookasideList. by destruct (pools w1).
Qed.

Lemma freeptd_not_aborted current w : __acrt_freeptd current w ≠ Aborted.
Proof.
  unfold __acrt_freeptd, KeAcquireInStackQueuedSpinLock,
    KeReleaseInStackQueuedSpinLock. unfold_bind.
  destruct (lock w); [done|].
  pose proof (table_delete_not_aborted (current_ptd current)
                (set_lock true w)) as Hdelete.
  destruct (table_delete (current_ptd current) (set_lock true w))
    as [d w1| | | |]; try done.
  by destruct (lock w1).
Qed.

Lemma initialize_not_aborted fuel current w :
  __acrt_initialize_ptd fuel current w ≠ Aborted.
Proof. rewrite initialize_eq. by destruct (nonpaged w). Qed.

(** C2: on an initialised registry [__acrt_getptd_noexit] always returns,
    and it returns null exactly when the thread has no block and the
    allocation callback finds no buffer (the lookaside list and the
    non-paged pool are both empty); the state is then unchanged.
    [__acrt_getptd] returns the same block when there is one and ends in
    [abort()] when there is none; no other entry point of the registry ever
    ends in [abort()]. *)
Theorem getptd_noexit_absent_getptd_aborts current w :
  lock w = false -> is_Some (pools w) ->
  exists r w',
    __acrt_getptd_noexit current w = Returned r w' /\
    (r = None <-> find_current current w = None /\ free_buffers w = []) /\
    (r = None -> w' = w) /\
    __acrt_getptd current w =
      match r with
      | Some p => Returned p w'
      | None => Aborted
      end /\
    __acrt_freeptd current w ≠ Aborted /\
    forall fuel flag,
      __acrt_initialize_ptd fuel current w ≠ Aborted /\
      __acrt_uninitialize_ptd fuel flag w ≠ Aborted.
Proof.
  intros Hlock [cached Hp].
  assert (Hothers :
            __acrt_freeptd current w ≠ Aborted /\
            forall fuel flag,
              __acrt_initialize_ptd fuel current w ≠ Aborted /\
              __acrt_uninitialize_ptd fuel flag w ≠ Aborted).
  { split; [apply freeptd_not_aborted|]. intros fuel flag.
    split; [apply initialize_not_aborted|apply uninitialize_not_aborted]. }
  assert (Hget : exists r w',
            __acrt_getptd_noexit current w = Returned r w' /\
            (r = None <-> find_current current w = None /\ free_buffers w = []) /\
            (r = None -> w' = w) /\
            __acrt_getptd current w =
              match r with
              | Some p => Returned p w'
              | None => Aborted
              end).
  { clear Hothers. unfold __acrt_getptd. unfold_bind.
    rewrite getptd_noexit_eq by done.
    unfold free_buffers, pool_entries. rewrite Hp. simpl.
    destruct (find_current current w) as [node|].
    - eexists _, _. split; [done|]. split.
      + split; [discriminate|]. by intros [? _].
      + split; [discriminate|done].
    - destruct cached as [|entry cached].
      + destruct (nonpaged w) as [|entry rest].
        * eexists _, _. split; [done|]. by repeat split.
        * eexists _, _. split; [done|]. split.
          -- split; [discriminate|]. by intros [_ ?].
          -- split; [discriminate|done].
      + eexists _, _. split; [done|]. split.
        * split; [discriminate|]. by intros [_ ?].
        * split; [discriminate|done]. }
  destruct Hget as (r & w' & Hrun & Hnone & Hsame & Hstrict).
  exists r, w'. by repeat (split; [done|]).
Qed.


(** C4: on a registry whose lookaside list is initialised, whatever the
    table holds, [__acrt_uninitialize_ptd] returns as soon as the fuel covers
    the number of elements.  It leaves the table empty and the lookaside list
    deleted, it has handed every node to [__acrt_ptd_table_free] (so no
    owned buffer of a block stays live), and every buffer is back in the
    non-paged pool.  With an empty table only the list is deleted. *)
Theorem uninitialize_ptd_drains fuel flag w cached :
  pools w = Some cached ->
  (length (table w) <= fuel)%nat ->
  __acrt_uninitialize_ptd fuel flag w = Returned true (torn_down cached w) /\
  (free_nodes (table w);; ExDeleteNPagedLookasideList) (set_table [] w) =
    Returned tt (torn_down cached w) /\
  table (torn_down cached w) = [] /\
  pools (torn_down cached w) = None /\
  nonpaged (torn_down cached w) ≡ₚ table w ++ cached ++ nonpaged w /\
  (forall node block,
     node ∈ table w -> block ≠ 0 ->
     block = _strerror_buffer (base (mem w (user_data node))) \/
     block = _wcserror_buffer (base (mem w (user_data node))) ->
     block ∉ crt_heap (torn_down cached w)) /\
  (table w = [] ->
   torn_down cached w = set_pools None (set_nonpaged (cached ++ nonpaged w) w)).
Proof.
  intros Hp Hfuel.
  split; [by apply uninitialize_torn_down|].
  split.
  { unfold_bind.
    rewrite (free_nodes_eq _ _ cached) by done.
    unfold ExDeleteNPagedLookasideList, torn_down. simpl.
    by rewrite <- app_assoc. }
  split; [done|]. split; [done|]. split.
  { simpl. by rewrite reverse_Permutation. }
  split.
  - intros node block Hin Hnz Hblock Hlive. simpl in Hlive.
    apply heap_after_elem in Hlive as [_ Hfreed].
    destruct (Hfreed node Hin Hnz) as [Hs Hw]. by destruct Hblock.
  - intros Hnil. unfold torn_down. rewrite Hnil. simpl.
    destruct w; simpl in *; by subst.
Qed.

(** C5 (as amended): in every reachable state the blocks of the table carry
    pairwise distinct ids, hence pairwise distinct (id, token) pairs.  On an
    initialised registry, calls from threads with pairwise distinct ids none
    of which has a block yet, no more of them than there are buffers left,
    return pairwise distinct blocks and make the table grow by exactly their
    number; and a call under an id that has just been served, whatever the
    token, returns the same block and changes nothing. *)
Theorem one_block_per_thread_id w :
  reachable w ->
  NoDup (node_tid (mem w) <$> table w) /\
  NoDup (stored_identity w <$> table w) /\
  (forall threads,
    is_Some (pools w) ->
    NoDup (PsGetCurrentThreadId <$> threads) ->
    (forall t, t ∈ threads -> find_current t w = None) ->
    (length threads <= length (free_buffers w))%nat ->
    exists blocks w',
      calls threads w = Returned (Some <$> blocks) w' /\
      NoDup blocks /\
      length blocks = length threads /\
      length (table w') = (length (table w) + length threads)%nat) /\
  forall first second,
    is_Some (pools w) ->
    PsGetCurrentThreadId first = PsGetCurrentThreadId second ->
    exists r w',
      __acrt_getptd_noexit first w = Returned r w' /\
      __acrt_getptd_noexit second w' = Returned r w'.
Proof.
  intros Hreach. apply reachable_consistent in Hreach as Hc.
  pose proof (ordered_NoDup _ _ (table_ordered w Hc)) as Hids.
  split; [done|]. split; [|split].
  - apply (NoDup_fmap_1 fst). by rewrite <- list_fmap_compose.
  - intros threads Hp Hnd Hmiss Hlen.
    destruct (calls_fresh threads w) as (w' & Hrun & _ & Hgrow); try done.
    exists (user_data <$> take (length threads) (free_buffers w)), w'.
    split; [by rewrite <- list_fmap_compose|].
    split; [|split; [|done]].
    + apply NoDup_fmap_2_strong.
      * intros a b _ _. apply user_data_inj.
      * eapply sublist_NoDup; [|apply sublist_take].
        by apply consistent_free_buffers_NoDup.
    + by rewrite length_fmap, length_take_le.
  - intros first second Hp Hid.
    destruct (getptd_noexit_ready first w (conj Hc Hp))
      as (r & w' & Hrun & Hready).
    exists r, w'. split; [done|].
    apply (getptd_noexit_settled first second r w' Hready); [|done].
    exact (getptd_noexit_settles first r w w' (conj Hc Hp) Hrun).
Qed.

Lemma getptd_noexit_uses_one_buffer current w r w1 :
  ready w ->
  __acrt_getptd_noexit current w = Returned r w1 ->
  ready w1 /\
  (length (free_buffers w) <= S (length (free_buffers w1)))%nat /\
  (free_buffers w ≠ [] -> exists p, r = Some p).
Proof.
  intros Hready Hrun.
  destruct (find_current current w) as [node|] eqn:Hfind.
  - rewrite (getptd_noexit_hit current w node) in Hrun
      by (done || apply Hready).
    injection Hrun as <- <-.
    split; [done|]. split; [lia|]. intros _. by eexists.
  - destruct (free_buffers w) as [|node rest] eqn:Hfree.
    + destruct (ready_exhausted w Hready Hfree) as [Hp Hnp].
      rewrite getptd_noexit_eq, Hfind, Hp, Hnp in Hrun by apply Hready.
      injection Hrun as <- <-. rewrite Hfree.
      split; [done|]. split; [simpl; lia|done].
    + destruct (getptd_noexit_miss current w node rest Hready Hfind Hfree)
        as (w' & Hrun' & Hready' & Hfree' & _).
      rewrite Hrun' in Hrun. injection Hrun as <- <-.
      split; [done|]. split; [rewrite Hfree'; simpl; lia|].
      intros _. by eexists.
Qed.

Lemma calls_keep_settled current r threads : forall w rs w',
  ready w -> settled current r w ->
  calls threads w = Returned rs w' ->
  settled current r w'.
Proof.
  induction threads as [|other rest IH]; intros w rs w' Hready Hsettled Hrun.
  - simpl in Hrun. by injection Hrun as _ <-.
  - apply calls_cons in Hrun as (r1 & w1 & rs' & Hfirst & Hrest & _).
    destruct (getptd_noexit_uses_one_buffer other w r1 w1 Hready Hfirst)
      as [Hready1 _].
    apply (IH w1 rs' w' Hready1); [|done].
    exact (getptd_noexit_keeps_settled current other r r1 w w1
             Hready Hsettled Hfirst).
Qed.

Lemma calls_all_settled threads : forall w rs w',
  ready w ->
  calls threads w = Returned rs w' ->
  forall i ti,
    threads !! i = Some ti ->
    exists r, rs !! i = Some r /\ settled ti r w'.
Proof.
  induction threads as [|current rest IH]; intros w rs w' Hready Hrun i ti Hi.
  - done.
  - apply calls_cons in Hrun as (r1 & w1 & rs' & Hfirst & Hrest & ->).
    destruct (getptd_noexit_uses_one_buffer current w r1 w1 Hready Hfirst)
      as [Hready1 _].
    destruct i as [|i]; simpl in Hi |- *.
    + injection Hi as <-. exists r1. split; [done|].
      apply (calls_keep_settled current r1 rest w1 rs' w' Hready1); [|done].
      exact (getptd_noexit_settles current r1 w w1 Hready Hfirst).
    + exact (IH w1 rs' w' Hready1 Hrest i ti Hi).
Qed.

Lemma calls_with_room threads : forall w rs w',
  ready w ->
  calls threads w = Returned rs w' ->
  forall i ti,
    threads !! i = Some ti ->
    (i < length (free_buffers w))%nat ->
    exists p, rs !! i = Some (Some p).
Proof.
  induction threads as [|current rest IH];
    intros w rs w' Hready Hrun i ti Hi Hroom.
  - done.
  - apply calls_cons in Hrun as (r1 & w1 & rs' & Hfirst & Hrest & ->).
    destruct (getptd_noexit_uses_one_buffer current w r1 w1 Hready Hfirst)
      as (Hready1 & Hone & Hsome).
    destruct i as [|i]; simpl in Hi |- *.
    + destruct Hsome as [p ->].
      * intros Hnil. rewrite Hnil in Hroom. simpl in Hroom. lia.
      * by exists p.
    + apply (IH w1 rs' w' Hready1 Hrest i ti Hi). lia.
Qed.

(** C6: on an initialised registry every sequence of
    [__acrt_getptd_noexit] calls, by whatever threads, returns, and any two
    calls of the sequence made under the same identity (same id, same token)
    return the same result.  That result is a block whenever there is one to
    return: a thread that has a block when the sequence starts gets that
    block at each of its calls, and each of the first calls, as many as
    there are free buffers at the start, returns a block.  Whatever a call
    returns is still right when the sequence ends: a returned block is the
    one linked under the caller's id, and null was returned only to a thread
    that has no block while no buffer is left. *)
Theorem same_identity_same_block threads w :
  ready w ->
  exists rs w',
    calls threads w = Returned rs w' /\
    length rs = length threads /\
    (forall i j ti tj,
       threads !! i = Some ti -> threads !! j = Some tj ->
       PsGetCurrentThreadId ti = PsGetCurrentThreadId tj ->
       __get_thread_uid ti = __get_thread_uid tj ->
       rs !! i = rs !! j) /\
    (forall i ti node,
       threads !! i = Some ti ->
       find_current ti w = Some node ->
       rs !! i = Some (Some (user_data node))) /\
    (forall i ti,
       threads !! i = Some ti ->
       (i < length (free_buffers w))%nat ->
       exists p, rs !! i = Some (Some p)) /\
    (forall i ti,
       threads !! i = Some ti ->
       exists r,
         rs !! i = Some r /\
         match r with
         | Some p =>
             exists node, p = user_data node /\ find_current ti w' = Some node
         | None => find_current ti w' = None /\ free_buffers w' = []
         end).
Proof.
  intros Hready.
  destruct (calls_ready threads w Hready) as (rs & w' & Hrun & _ & Hlen).
  exists rs, w'. split; [done|]. split; [done|]. split; [|split; [|split]].
  - intros i j ti tj Hi Hj Hid _.
    exact (calls_same_thread threads w rs w' Hready Hrun i j ti tj Hi Hj Hid).
  - intros i ti node Hi Hfind.
    apply (calls_settled ti (Some (user_data node)) threads w rs w'
             Hready) with (other := ti); try done.
    by exists node.
  - exact (calls_with_room threads w rs w' Hready Hrun).
  - exact (calls_all_settled threads w rs w' Hready Hrun).
Qed.


(** C9: when [store_and_initialize_ptd] finds a block under the id of [ptd]
    whose stored token differs from the caller's, it returns that block with
    the [__acrt_ptd] base filled with zeros.  The stored id and token keep
    their values, so the token is still the previous occupant's; no other
    address of the memory changes, and the table, the lookaside list, the
    pool, the CRT heap and the lock are as before. *)
Theorem store_and_initialize_ptd_reuse_keeps_identity current ptd w node :
  find_node cmp (mem w) ptd (table w) = Some node ->
  uid (mem w (user_data node)) ≠ __get_thread_uid current ->
  exists w',
    store_and_initialize_ptd current ptd w =
      Returned (Some (user_data node)) w' /\
    base (mem w' (user_data node)) = zero_ptd /\
    tid (mem w' (user_data node)) = tid (mem w (user_data node)) /\
    uid (mem w' (user_data node)) = uid (mem w (user_data node)) /\
    uid (mem w' (user_data node)) ≠ __get_thread_uid current /\
    (forall address, address ≠ user_data node -> mem w' address = mem w address) /\
    table w' = table w /\ pools w' = pools w /\ nonpaged w' = nonpaged w /\
    crt_heap w' = crt_heap w /\ lock w' = lock w.
Proof.
  intros Hfind Hstale.
  unfold store_and_initialize_ptd, table_insert,
    RtlInsertElementGenericTableAvl, RtlSecureZeroMemory_acrt_ptd. unfold_monad.
  rewrite Hfind. simpl.
  destruct (Z.eqb_spec (__get_thread_uid current) (uid (mem w (user_data node))))
    as [Heq|_]; [by rewrite Heq in Hstale|].
  simpl. eexists. split; [done|]. simpl. rewrite store_same. simpl.
  repeat split; try done.
  intros address Hne. by apply store_other.
Qed.

(** C10: the comparison callback reads the ids of its arguments and nothing
    else; and when the table holds a block under the caller's id whose
    stored token is not the caller's, [__acrt_freeptd] unlinks and frees that
    block all the same. *)
Theorem freeptd_matches_by_id_only current w node :
  ready w ->
  node ∈ table w ->
  tid (mem w (user_data node)) = PsGetCurrentThreadId current ->
  uid (mem w (user_data node)) ≠ __get_thread_uid current ->
  (forall a a' b b',
     tid a = tid a' -> tid b = tid b' ->
     __acrt_ptd_table_compare a b = __acrt_ptd_table_compare a' b') /\
  exists cached,
    pools w = Some cached /\
    __acrt_freeptd current w = Returned tt (released node cached w) /\
    (node ∉ table (released node cached w)) /\
    pools (released node cached w) = Some (node :: cached) /\
    forall block,
      block ≠ 0 ->
      block = _strerror_buffer (base (mem w (user_data node))) \/
      block = _wcserror_buffer (base (mem w (user_data node))) ->
      block ∉ crt_heap (released node cached w).
Proof.
  intros [Hc [cached Hp]] Hin Hid _. pose proof Hc as [Hlock Hnd Hord].
  split.
  { intros a a' b b' Ha Hb. unfold __acrt_ptd_table_compare. by rewrite Ha, Hb. }
  assert (Hfind : find_current current w = Some node)
    by (by apply find_node_elem).
  exists cached. split; [done|].
  split; [by rewrite freeptd_eq, Hfind, Hp|].
  split; [by apply unlink_node_not_elem, consistent_table_NoDup|].
  split; [done|]. intros block. apply released_not_live.
Qed.
(** A call of [__acrt_getptd_noexit] changes no block that is in the table:
    every node stays linked and the object at its element address is the
    same afterwards, whatever the identity of the caller.  In particular
    the zero fill of [store_and_initialize_ptd] is never applied to a block
    that was found. *)
Theorem getptd_noexit_leaves_blocks_untouched current w r w' :
  consistent w ->
  __acrt_getptd_noexit current w = Returned r w' ->
  forall node,
    node ∈ table w ->
    node ∈ table w' /\ mem w' (user_data node) = mem w (user_data node).
Proof.
  intros Hc Hrun node Hin. pose proof Hc as [Hlock Hnd Hord].
  rewrite getptd_noexit_eq in Hrun by done.
  assert (Hlinked : forall fresh w0,
            table w0 = table w -> mem w0 = mem w -> fresh ≠ node ->
            node ∈ table (linked current fresh w0) /\
            mem (linked current fresh w0) (user_data node)
              = mem w (user_data node)).
  { intros fresh w0 Ht Hm Hne. simpl. rewrite Ht, Hm. split.
    - rewrite link_node_perm. by right.
    - apply store_other. intros Heq. by apply user_data_inj in Heq. }
  destruct (find_current current w); [by inversion Hrun; subst|].
  unfold pool_entries in Hnd.
  destruct (pools w) as [[|entry cached]|] eqn:Hp; [| |discriminate];
    simpl in Hnd.
  - destruct (nonpaged w) as [|entry rest] eqn:Hnp;
      inversion Hrun; subst; [done|].
    apply Hlinked; try done. intros ->.
    apply NoDup_app in Hnd as (_ & Hdis & _). apply (Hdis node Hin). by left.
  - inversion Hrun; subst. apply Hlinked; try done. intros ->.
    apply NoDup_app in Hnd as (_ & Hdis & _). apply (Hdis node Hin). by left.
Qed.
(** *** Further properties of the registry *)

Lemma unlink_node_elem node other nodes :
  other ∈ nodes -> other ≠ node -> other ∈ unlink_node node nodes.
Proof.
  induction nodes as [|n rest IH]; simpl; intros Hin Hne.
  - by apply elem_of_nil in Hin.
  - destruct (Z.eqb_spec n node) as [->|Hn].
    + apply elem_of_cons in Hin as [->|Hin]; [done|done].
    + apply elem_of_cons in Hin as [->|Hin]; [by left|right; by apply IH].
Qed.

Lemma find_current_released_other current other node cached w :
  consistent w ->
  find_current current w = Some node ->
  PsGetCurrentThreadId other ≠ PsGetCurrentThreadId current ->
  find_current other (released node cached w) = find_current other w.
Proof.
  intros Hc Hfind Hne. pose proof Hc as [_ _ Hord].
  apply find_node_Some in Hfind as [Hnode Htid].
  assert (Hord' : ordered (mem w) (unlink_node node (table w)))
    by (by apply unlink_node_ordered).
  destruct (find_current other w) as [n|] eqn:Ho.
  - apply find_node_Some in Ho as [Hin Ht].
    apply find_node_elem; [done| |done]. simpl.
    apply unlink_node_elem; [done|]. intros ->.
    simpl in Htid, Ht. congruence.
  - destruct (find_current other (released node cached w)) as [n|] eqn:Ho';
      [|done].
    apply find_node_Some in Ho' as [Hin Ht]. simpl in Hin, Ht.
    apply unlink_node_subseteq in Hin.
    by apply (find_node_None _ _ _ Hord Ho) in Hin.
Qed.

Lemma getptd_noexit_all_buffers current w r w' :
  lock w = false ->
  __acrt_getptd_noexit current w = Returned r w' ->
  all_buffers w' ≡ₚ all_buffers w.
Proof.
  intros Hlock Hrun. rewrite getptd_noexit_eq in Hrun by done.
  unfold all_buffers, pool_entries.
  destruct (find_current current w); [by inversion Hrun; subst|].
  destruct (pools w) as [[|entry cached]|] eqn:Hp; [| |discriminate].
  - destruct (nonpaged w) as [|entry rest] eqn:Hnp; inversion Hrun; subst.
    + by rewrite Hp, Hnp.
    + simpl. rewrite Hp, link_node_perm. simpl.
      by rewrite Permutation_middle.
  - inversion Hrun; subst. simpl. rewrite link_node_perm. simpl.
    by rewrite Permutation_middle.
Qed.

Lemma freeptd_all_buffers current w w' :
  lock w = false ->
  __acrt_freeptd current w = Returned tt w' ->
  all_buffers w' ≡ₚ all_buffers w.
Proof.
  intros Hlock Hrun. rewrite freeptd_eq in Hrun by done.
  unfold all_buffers, pool_entries.
  destruct (find_current current w) as [node|] eqn:Hfind;
    [|by inversion Hrun; subst].
  destruct (pools w) as [cached|] eqn:Hp; [|discriminate].
  inversion Hrun; subst. simpl.
  apply find_node_Some in Hfind as [Hin _].
  rewrite <- Permutation_middle.
  change ((node :: unlink_node node (table w)) ++ cached ++ nonpaged w
            ≡ₚ table w ++ cached ++ nonpaged w).
  by rewrite <- unlink_node_perm.
Qed.

Lemma use_ready w w' : ready w -> use w w' -> ready w'.
Proof.
  intros [Hc Hp] Hstep. destruct Hstep as
    [current r w w' Hrun|current p w w' Hrun|current w w' Hrun|node f heap w Hin].
  - destruct (getptd_noexit_consistent current w r w' Hc Hrun). split; auto.
  - apply getptd_returned in Hrun.
    destruct (getptd_noexit_consistent current w _ w' Hc Hrun). split; auto.
  - destruct (freeptd_consistent current w w' Hc Hrun). split; auto.
  - split; [by apply owner_write_consistent|done].
Qed.

Lemma use_all_buffers w w' :
  lock w = false -> use w w' -> all_buffers w' ≡ₚ all_buffers w.
Proof.
  intros Hlock Hstep. destruct Hstep as
    [current r w w' Hrun|current p w w' Hrun|current w w' Hrun|node f heap w Hin].
  - by eapply getptd_noexit_all_buffers.
  - apply getptd_returned in Hrun. by eapply getptd_noexit_all_buffers.
  - by eapply freeptd_all_buffers.
  - done.
Qed.

Lemma uses_ready_all_buffers w w' :
  ready w -> rtc use w w' -> ready w' /\ all_buffers w' ≡ₚ all_buffers w.
Proof.
  intros Hready Huses. induction Huses as [w|w w1 w2 Hstep _ IH]; [done|].
  pose proof (use_ready w w1 Hready Hstep) as Hready1.
  destruct (IH Hready1) as [Hready2 Hperm]. split; [done|].
  rewrite Hperm. apply use_all_buffers; [|done].
  by destruct Hready as [[? _ _] _].
Qed.

Lemma initialize_ready fuel current w w' :
  NoDup (nonpaged w) ->
  __acrt_initialize_ptd fuel current w = Returned true w' ->
  ready w' /\ all_buffers w' ≡ₚ nonpaged w.
Proof.
  intros Hnd Hrun.
  pose proof (initialize_consistent fuel current w true w' Hnd Hrun) as Hc.
  rewrite initialize_eq in Hrun.
  destruct (nonpaged w) as [|node rest]; inversion Hrun; subst.
  split; [split; [done|simpl; eauto]|reflexivity].
Qed.

(** Whatever threads obtain, fill and release blocks between a successful
    [__acrt_initialize_ptd] at driver load and [__acrt_uninitialize_ptd],
    the teardown returns, with fuel for the blocks still linked, and leaves
    the non-paged pool with exactly the buffers it had at load. *)
Theorem teardown_returns_every_buffer fuel current flag w0 w1 w2 :
  boot w0 ->
  __acrt_initialize_ptd fuel current w0 = Returned true w1 ->
  rtc use w1 w2 ->
  exists w3,
    __acrt_uninitialize_ptd (length (table w2)) flag w2 = Returned true w3 /\
    table w3 = [] /\ pools w3 = None /\
    nonpaged w3 ≡ₚ nonpaged w0.
Proof.
  intros (_ & _ & _ & Hnd) Hinit Huses.
  destruct (initialize_ready fuel current w0 w1 Hnd Hinit) as [Hready1 Hall1].
  destruct (uses_ready_all_buffers w1 w2 Hready1 Huses)
    as [[Hc2 [cached Hp2]] Hall2].
  exists (torn_down cached w2).
  split; [by apply uninitialize_torn_down|].
  split; [done|]. split; [done|].
  rewrite <- Hall1, <- Hall2. unfold all_buffers, pool_entries.
  rewrite Hp2. simpl. by rewrite reverse_Permutation.
Qed.

(** After [__acrt_freeptd] the caller has no block: a lookup for it misses,
    and a second [__acrt_freeptd] changes nothing. *)
Theorem freeptd_twice_is_once current w w1 :
  ready w ->
  __acrt_freeptd current w = Returned tt w1 ->
  table_lookup (current_ptd current) w1 = Returned None w1 /\
  __acrt_freeptd current w1 = Returned tt w1.
Proof.
  intros [Hc [cached Hp]] Hrun.
  destruct (freeptd_consistent current w w1 Hc Hrun) as [[Hlock1 _ _] _].
  pose proof Hc as [Hlock _ _].
  assert (Hgone : find_current current w1 = None).
  { rewrite freeptd_eq in Hrun by done.
    destruct (find_current current w) as [node|] eqn:Hfind.
    - rewrite Hp in Hrun. inversion Hrun; subst.
      by apply find_current_released.
    - by inversion Hrun; subst. }
  split.
  - unfold table_lookup, RtlLookupElementGenericTableAvl, gets.
    fold (find_current current w1). by rewrite Hgone.
  - by rewrite freeptd_eq, Hgone.
Qed.

(** [__acrt_freeptd] writes to no block: the memory is as before, every
    block under another id stays linked, and a thread with another id finds
    what it found before. *)
Theorem freeptd_leaves_other_blocks current w w1 :
  ready w ->
  __acrt_freeptd current w = Returned tt w1 ->
  mem w1 = mem w /\
  (forall node,
     node ∈ table w ->
     tid (mem w (user_data node)) ≠ PsGetCurrentThreadId current ->
     node ∈ table w1) /\
  forall other,
    PsGetCurrentThreadId other ≠ PsGetCurrentThreadId current ->
    find_current other w1 = find_current other w.
Proof.
  intros [Hc [cached Hp]] Hrun. pose proof Hc as [Hlock _ _].
  rewrite freeptd_eq in Hrun by done.
  destruct (find_current current w) as [node|] eqn:Hfind;
    [|by inversion Hrun; subst].
  rewrite Hp in Hrun. inversion Hrun; subst.
  split; [done|]. split.
  - intros other Hin Hne. simpl. apply unlink_node_elem; [done|].
    intros ->. apply find_node_Some in Hfind as [_ Htid]. by apply Hne.
  - intros other Hne. by apply (find_current_released_other current).
Qed.

(** Calls from threads with pairwise distinct ids, none of which has a block:
    as long as buffers are left each call returns a fresh block, in the order
    in which the allocation draws the buffers; from then on every call
    returns null.  The table grows by the smaller of the two numbers. *)
Theorem calls_until_exhausted threads : forall w,
  ready w ->
  NoDup (PsGetCurrentThreadId <$> threads) ->
  (forall t, t ∈ threads -> find_current t w = None) ->
  exists w',
    calls threads w =
      Returned (((Some ∘ user_data) <$> take (length threads) (free_buffers w))
                ++ replicate (length threads - length (free_buffers w)) None)
               w' /\
    length (table w') =
      (length (table w) + min (length threads) (length (free_buffers w)))%nat.
Proof.
  induction threads as [|t rest IH]; intros w Hready Hnd Hmiss.
  - exists w. split; [done|]. simpl. lia.
  - simpl in Hnd. apply NoDup_cons in Hnd as [Hnotin Hnd].
    assert (Ht : find_current t w = None) by (apply Hmiss; by left).
    destruct (free_buffers w) as [|node bufs] eqn:Hfree.
    + assert (Hrun : __acrt_getptd_noexit t w = Returned None w)
        by (by apply (getptd_noexit_settled t t None w)).
      destruct (IH w Hready Hnd) as (w' & Hrest & Hlen).
      { intros t' Hin. apply Hmiss. by right. }
      exists w'. rewrite Hfree in Hrest, Hlen. simpl in Hrest, Hlen.
      rewrite take_nil in Hrest. simpl in Hrest.
      rewrite Nat.sub_0_r in Hrest.
      split; [|rewrite Hlen; simpl; lia].
      simpl. unfold_bind. by rewrite Hrun, Hrest.
    + destruct (getptd_noexit_miss t w node bufs)
        as (w1 & Hrun & Hready1 & Hfree1 & Hperm & _ & _ & Hother); try done.
      destruct (IH w1 Hready1 Hnd) as (w' & Hrest & Hlen).
      { intros t' Hin. rewrite Hother; [apply Hmiss; by right|].
        intros Heq. apply Hnotin. rewrite <- Heq.
        by apply list_elem_of_fmap_2. }
      exists w'. rewrite Hfree1 in Hrest, Hlen.
      split.
      * simpl. unfold_bind. by rewrite Hrun, Hrest.
      * rewrite Hlen, Hperm. simpl. lia.
Qed.

(** With every buffer in use a thread without a block gets null; once a
    thread that has one releases it, the same call returns the released
    buffer as a value-initialised block with the caller's identity, and the
    thread that released it has none. *)
Theorem release_makes_room waiting holder w node :
  ready w ->
  free_buffers w = [] ->
  find_current waiting w = None ->
  find_current holder w = Some node ->
  __acrt_getptd_noexit waiting w = Returned None w /\
  exists w1 w2,
    __acrt_freeptd holder w = Returned tt w1 /\
    __acrt_getptd_noexit waiting w1 = Returned (Some (user_data node)) w2 /\
    mem w2 (user_data node) = current_ptd waiting /\
    find_current holder w2 = None.
Proof.
  intros Hready Hfull Hwaiting Hholder.
  pose proof Hready as [Hc [cached Hp]]. pose proof Hc as [Hlock _ _].
  assert (Hne : PsGetCurrentThreadId waiting ≠ PsGetCurrentThreadId holder).
  { intros Heq. rewrite (find_current_tid waiting holder) in Hwaiting by done.
    congruence. }
  split; [by apply (getptd_noexit_settled waiting waiting None w)|].
  assert (Hin : node ∈ table w)
    by (by apply find_node_Some in Hholder as [? _]).
  assert (Hready1 : ready (released node cached w)).
  { split; [by apply released_consistent|]. simpl. eauto. }
  destruct (getptd_noexit_miss waiting (released node cached w) node [])
    as (w2 & Hrun & _ & _ & _ & _ & Hmem & Hother); try done.
  { by rewrite (find_current_released_other holder). }
  { unfold free_buffers, pool_entries in *. rewrite Hp in Hfull. simpl in *.
    by rewrite Hfull. }
  exists (released node cached w), w2.
  split; [by rewrite freeptd_eq, Hholder, Hp|].
  split; [done|]. split; [done|].
  rewrite Hother by done. by apply find_current_released.
Qed.

(** The spin lock: entered with the lock free, each of the three entry
    points that take it has released it whenever it returns, also when the
    result is null; entered with the lock held, none of them returns. *)
Theorem lock_released_on_return current w :
  if lock w
  then __acrt_getptd_noexit current w = Deadlock /\
       __acrt_getptd current w = Deadlock /\
       __acrt_freeptd current w = Deadlock
  else (forall r w', __acrt_getptd_noexit current w = Returned r w' ->
                     lock w' = false) /\
       (forall p w', __acrt_getptd current w = Returned p w' ->
                     lock w' = false) /\
       (forall w', __acrt_freeptd current w = Returned tt w' ->
                   lock w' = false).
Proof.
  destruct (lock w) eqn:Hlock.
  - unfold __acrt_getptd, __acrt_getptd_noexit, __acrt_freeptd,
      KeAcquireInStackQueuedSpinLock. unfold_bind. by rewrite Hlock.
  - assert (Hget : forall r w', __acrt_getptd_noexit current w = Returned r w' ->
                                lock w' = false).
    { intros r w' Hrun. rewrite getptd_noexit_eq in Hrun by done.
      destruct (find_current current w); [by inversion Hrun; subst|].
      destruct (pools w) as [[|entry cached]|]; [| |discriminate].
      - destruct (nonpaged w); by inversion Hrun; subst.
      - by inversion Hrun; subst. }
    split; [done|]. split.
    + intros p w' Hrun. apply getptd_returned in Hrun. by eapply Hget.
    + intros w' Hrun. rewrite freeptd_eq in Hrun by done.
      destruct (find_current current w); [|by inversion Hrun; subst].
      destruct (pools w); [|discriminate]. by inversion Hrun; subst.
Qed.

(** [__acrt_initialize_ptd] on a registry that holds blocks or cached
    buffers abandons them: whether it succeeds or not, they are afterwards
    neither linked, nor cached, nor back in the non-paged pool; the bytes of
    the blocks and the CRT heap, with the buffers the blocks own, are as
    before. *)
Theorem initialize_abandons_blocks fuel current w b w' node :
  consistent w ->
  node ∈ table w ++ pool_entries w ->
  __acrt_initialize_ptd fuel current w = Returned b w' ->
  (node ∉ all_buffers w') /\
  crt_heap w' = crt_heap w /\
  mem w' (user_data node) = mem w (user_data node).
Proof.
  intros [_ Hnd _] Hin Hrun. rewrite initialize_eq in Hrun.
  rewrite app_assoc in Hnd. apply NoDup_app in Hnd as (_ & Hdis & _).
  specialize (Hdis node Hin).
  destruct (nonpaged w) as [|fresh rest] eqn:Hnp; inversion Hrun; subst.
  - split; [|done]. unfold all_buffers, pool_entries. simpl. rewrite Hnp.
    apply not_elem_of_nil.
  - split; [|split; [done|]].
    + unfold all_buffers, pool_entries. simpl. done.
    + simpl. apply store_other. intros Heq. apply user_data_inj in Heq.
      subst fresh. apply Hdis. by left.
Qed.

(** In every reachable state a lookup for the caller's id returns the block
    that carries this id when the table holds one, and null when it holds
    none: the ordered search misses nothing, because the table is kept in
    the order of the ids. *)
Theorem lookup_finds_the_callers_id current w :
  reachable w ->
  (forall node,
     node ∈ table w ->
     tid (mem w (user_data node)) = PsGetCurrentThreadId current ->
     table_lookup (current_ptd current) w = Returned (Some (user_data node)) w) /\
  ((forall node,
      node ∈ table w ->
      tid (mem w (user_data node)) ≠ PsGetCurrentThreadId current) ->
   table_lookup (current_ptd current) w = Returned None w).
Proof.
  intros Hreach. apply reachable_consistent in Hreach as [_ _ Hord].
  unfold table_lookup, RtlLookupElementGenericTableAvl, gets. split.
  - intros node Hin Htid.
    by rewrite (find_node_elem (mem w) (current_ptd current) (table w) node).
  - intros Hnone.
    destruct (find_node cmp (mem w) (current_ptd current) (table w))
      as [node|] eqn:Hfind; [|done].
    apply find_node_Some in Hfind as [Hin Htid]. by apply Hnone in Hin.
Qed.

End Proofs.

(** ** The theorems at the sample states *)

#[local] Existing Instance sample_layout.

#[local] Abbreviation table := __acrt_startup_ptd_table.
#[local] Abbreviation pools := __acrt_startup_ptd_pools.
#[local] Abbreviation lock := __acrt_startup_ptd_table_lock.

Lemma boot_world_boot : boot boot_world.
Proof.
  split; [done|]. split; [done|]. split; [done|].
  compute_done.
Qed.

Lemma started_world_reachable : reachable started_world.
Proof.
  apply (reachable_step boot_world).
  - apply reachable_boot, boot_world_boot.
  - by apply (step_initialize 0%nat thread_p4_t16 true).
Qed.

Lemma started_world_ready : ready started_world.
Proof.
  split; [apply reachable_consistent, started_world_reachable|].
  by exists [].
Qed.

Lemma joined_world_reachable : reachable joined_world.
Proof.
  apply (reachable_step started_world); [apply started_world_reachable|].
  by apply (step_getptd_noexit thread_p4_t8 (Some 2032)).
Qed.

Lemma dirty_world_reachable : reachable dirty_world.
Proof.
  apply (reachable_step joined_world); [apply joined_world_reachable|].
  apply step_owner. compute_done.
Qed.

Lemma dirty_world_ready : ready dirty_world.
Proof.
  split; [apply reachable_consistent, dirty_world_reachable|].
  by exists [].
Qed.

Lemma full_world_ready : ready full_world.
Proof.
  split; [|by exists []].
  apply reachable_consistent, (reachable_step joined_world);
    [apply joined_world_reachable|].
  by apply (step_getptd_noexit thread_p4_t24 (Some 3032)).
Qed.

(** C1 (the code at the failing input): thread 8 of process 12 calls
    [__acrt_getptd_noexit] while the table still holds the block of thread 8
    of process 4.  The ids agree and the tokens differ, and the call returns
    that block as it is: the owned buffers and the scratch bytes of the
    previous occupant are in place and the stored token is still the
    previous occupant's. *)
Theorem getptd_noexit_returns_stale_block :
  let r := __acrt_getptd_noexit thread_p12_t8 dirty_world in
  PsGetCurrentThreadId thread_p12_t8 = tid (mem dirty_world 2032) /\
  __get_thread_uid thread_p12_t8 = 12884901890 /\
  uid (mem dirty_world 2032) = 4294967298 /\
  value_of r = Some (Some 2032) /\
  mem (state_of r boot_world) 2032 =
    mkPtdKm (mkPtd 500 600 [1; 1; 1; 1]) 8 4294967298 /\
  base (mem (state_of r boot_world) 2032) ≠ zero_ptd.
Proof.
  vm_compute. repeat split; discriminate.
Qed.

(** C2 at a full registry: thread 32 has no block and no buffer is left. *)
Lemma getptd_noexit_absent_getptd_aborts_witness :
  lock full_world = false /\
  is_Some (pools full_world) /\
  (exists r w',
     __acrt_getptd_noexit thread_p4_t32 full_world = Returned r w' /\
     (r = None <->
      find_current thread_p4_t32 full_world = None /\
      free_buffers full_world = []) /\
     (r = None -> w' = full_world) /\
     __acrt_getptd thread_p4_t32 full_world =
       match r with
       | Some p => Returned p w'
       | None => Aborted
       end /\
     __acrt_freeptd thread_p4_t32 full_world ≠ Aborted /\
     forall fuel flag,
       __acrt_initialize_ptd fuel thread_p4_t32 full_world ≠ Aborted /\
       __acrt_uninitialize_ptd fuel flag full_world ≠ Aborted) /\
  __acrt_getptd_noexit thread_p4_t32 full_world = Returned None full_world /\
  __acrt_getptd thread_p4_t32 full_world = Aborted.
Proof.
  assert (Hpool : is_Some (pools full_world)) by (by exists []).
  split; [reflexivity|]. split; [exact Hpool|]. split.
  - exact (getptd_noexit_absent_getptd_aborts thread_p4_t32 full_world
             eq_refl Hpool).
  - split; reflexivity.
Defined.

(** C4 at a registry of two blocks, one of which owns two live buffers. *)
Lemma uninitialize_ptd_drains_witness :
  pools dirty_world = Some [] /\
  (length (table dirty_world) <= 2)%nat /\
  __acrt_uninitialize_ptd 2 false dirty_world =
    Returned true (torn_down [] dirty_world) /\
  table (torn_down [] dirty_world) = [] /\
  pools (torn_down [] dirty_world) = None /\
  nonpaged (torn_down [] dirty_world) = [1000; 2000; 3000] /\
  crt_heap (torn_down [] dirty_world) = ∅.
Proof.
  assert (Hfuel : (length (table dirty_world) <= 2)%nat) by compute_done.
  split; [reflexivity|]. split; [exact Hfuel|]. split.
  - exact (proj1 (uninitialize_ptd_drains 2 false dirty_world [] eq_refl Hfuel)).
  - repeat split.
Defined.

(** C5 (counterexample to the claim as stated): threads 8 of process 4 and
    8 of process 12 are two distinct identities, neither has a block in the
    started registry and two buffers are free; yet both calls return the
    block at 2032 and the table grows from one entry to two, not three. *)
Lemma distinct_identities_share_a_block :
  reachable started_world /\
  (identity thread_p4_t8 ≠ identity thread_p12_t8) /\
  find_current thread_p4_t8 started_world = None /\
  find_current thread_p12_t8 started_world = None /\
  length (table started_world) = 1%nat /\
  length (free_buffers started_world) = 2%nat /\
  value_of (calls [thread_p4_t8; thread_p12_t8] started_world) =
    Some [Some 2032; Some 2032] /\
  length (table (state_of (calls [thread_p4_t8; thread_p12_t8] started_world)
                          boot_world)) = 2%nat.
Proof.
  split; [apply started_world_reachable|].
  split; [by vm_compute|]. repeat split.
Qed.

(** C5 (as amended) at the started registry, for threads 8 and 24. *)
Lemma one_block_per_thread_id_witness :
  reachable started_world /\
  is_Some (pools started_world) /\
  NoDup (PsGetCurrentThreadId <$> [thread_p4_t8; thread_p4_t24]) /\
  (forall t, t ∈ [thread_p4_t8; thread_p4_t24] ->
             find_current t started_world = None) /\
  (length [thread_p4_t8; thread_p4_t24]
   <= length (free_buffers started_world))%nat /\
  NoDup (node_tid (mem started_world) <$> table started_world) /\
  NoDup (stored_identity started_world <$> table started_world) /\
  (exists blocks w',
    calls [thread_p4_t8; thread_p4_t24] started_world =
      Returned (Some <$> blocks) w' /\
    NoDup blocks /\
    length blocks = length [thread_p4_t8; thread_p4_t24] /\
    length (table w') =
      (length (table started_world)
       + length [thread_p4_t8; thread_p4_t24])%nat) /\
  PsGetCurrentThreadId thread_p4_t8 = PsGetCurrentThreadId thread_p12_t8 /\
  exists r w',
    __acrt_getptd_noexit thread_p4_t8 started_world = Returned r w' /\
    __acrt_getptd_noexit thread_p12_t8 w' = Returned r w'.
Proof.
  assert (Hpool : is_Some (pools started_world)) by (by exists []).
  assert (Hids : NoDup (PsGetCurrentThreadId <$> [thread_p4_t8; thread_p4_t24]))
    by compute_done.
  assert (Hmiss : forall t, t ∈ [thread_p4_t8; thread_p4_t24] ->
                            find_current t started_world = None).
  { intros t Ht. apply elem_of_cons in Ht as [->|Ht]; [reflexivity|].
    apply elem_of_cons in Ht as [->|Ht]; [reflexivity|].
    by apply elem_of_nil in Ht. }
  assert (Hroom : (length [thread_p4_t8; thread_p4_t24]
                   <= length (free_buffers started_world))%nat) by compute_done.
  destruct (one_block_per_thread_id started_world started_world_reachable)
    as (Htids & Hpairs & Hcalls & Hshared).
  split; [apply started_world_reachable|]. split; [exact Hpool|].
  split; [exact Hids|]. split; [exact Hmiss|]. split; [exact Hroom|].
  split; [exact Htids|]. split; [exact Hpairs|].
  split; [exact (Hcalls [thread_p4_t8; thread_p4_t24] Hpool Hids Hmiss Hroom)|].
  split; [reflexivity|].
  exact (Hshared thread_p4_t8 thread_p12_t8 Hpool eq_refl).
Defined.

(** C6 for a sequence in which thread 8 of process 4 calls three times,
    with a call of the initialising thread in between, while two buffers
    are free: the calls return the blocks at 2032, 1032, 2032 and 2032. *)
Lemma same_identity_same_block_witness :
  ready started_world /\
  calls [thread_p4_t8; thread_p4_t16; thread_p4_t8; thread_p4_t8]
        started_world
    = Returned [Some 2032; Some 1032; Some 2032; Some 2032] joined_world /\
  (forall i j ti tj,
     [thread_p4_t8; thread_p4_t16; thread_p4_t8; thread_p4_t8] !! i
       = Some ti ->
     [thread_p4_t8; thread_p4_t16; thread_p4_t8; thread_p4_t8] !! j
       = Some tj ->
     PsGetCurrentThreadId ti = PsGetCurrentThreadId tj ->
     __get_thread_uid ti = __get_thread_uid tj ->
     [Some 2032; Some 1032; Some 2032; Some 2032] !! i
       = [Some 2032; Some 1032; Some 2032; Some 2032] !! j) /\
  (forall i ti node,
     [thread_p4_t8; thread_p4_t16; thread_p4_t8; thread_p4_t8] !! i
       = Some ti ->
     find_current ti started_world = Some node ->
     [Some 2032; Some 1032; Some 2032; Some 2032] !! i
       = Some (Some (user_data node))) /\
  (forall i ti,
     [thread_p4_t8; thread_p4_t16; thread_p4_t8; thread_p4_t8] !! i
       = Some ti ->
     (i < length (free_buffers started_world))%nat ->
     exists p,
       [Some 2032; Some 1032; Some 2032; Some 2032] !! i = Some (Some p)) /\
  (forall i ti,
     [thread_p4_t8; thread_p4_t16; thread_p4_t8; thread_p4_t8] !! i
       = Some ti ->
     exists r,
       [Some 2032; Some 1032; Some 2032; Some 2032] !! i = Some r /\
       match r with
       | Some p =>
           exists node,
             p = user_data node /\ find_current ti joined_world = Some node
       | None =>
           find_current ti joined_world = None /\
           free_buffers joined_world = []
       end).
Proof.
  split; [apply started_world_ready|].
  destruct (same_identity_same_block
              [thread_p4_t8; thread_p4_t16; thread_p4_t8; thread_p4_t8]
              started_world started_world_ready)
    as (rs & w' & Hrun & _ & Hsame & Hentry & Hroom & Hsettled).
  assert (Hcalls :
    calls [thread_p4_t8; thread_p4_t16; thread_p4_t8; thread_p4_t8]
          started_world
      = Returned [Some 2032; Some 1032; Some 2032; Some 2032] joined_world)
    by reflexivity.
  rewrite Hcalls in Hrun. injection Hrun as <- <-.
  split; [exact Hcalls|]. split; [exact Hsame|]. split; [exact Hentry|].
  split; [exact Hroom|exact Hsettled].
Defined.


(** C9 for thread 8 of process 12 and the block of thread 8 of process 4. *)
Lemma store_and_initialize_ptd_reuse_keeps_identity_witness :
  find_node __acrt_ptd_table_compare (mem dirty_world)
            (current_ptd thread_p12_t8) (table dirty_world) = Some 2000 /\
  (uid (mem dirty_world (user_data 2000)) ≠ __get_thread_uid thread_p12_t8) /\
  exists w',
    store_and_initialize_ptd thread_p12_t8 (current_ptd thread_p12_t8)
                             dirty_world =
      Returned (Some (user_data 2000)) w' /\
    base (mem w' (user_data 2000)) = zero_ptd /\
    tid (mem w' (user_data 2000)) = tid (mem dirty_world (user_data 2000)) /\
    uid (mem w' (user_data 2000)) = uid (mem dirty_world (user_data 2000)) /\
    (uid (mem w' (user_data 2000)) ≠ __get_thread_uid thread_p12_t8) /\
    (forall address,
       address ≠ user_data 2000 -> mem w' address = mem dirty_world address) /\
    table w' = table dirty_world /\ pools w' = pools dirty_world /\
    nonpaged w' = nonpaged dirty_world /\
    crt_heap w' = crt_heap dirty_world /\ lock w' = lock dirty_world.
Proof.
  assert (Hstale : uid (mem dirty_world (user_data 2000))
                   ≠ __get_thread_uid thread_p12_t8) by (by vm_compute).
  split; [reflexivity|]. split; [exact Hstale|].
  exact (store_and_initialize_ptd_reuse_keeps_identity thread_p12_t8
           (current_ptd thread_p12_t8) dirty_world 2000 eq_refl Hstale).
Defined.

(** C10 for thread 8 of process 12 and the block of thread 8 of process 4. *)
Lemma freeptd_matches_by_id_only_witness :
  ready dirty_world /\
  2000 ∈ table dirty_world /\
  tid (mem dirty_world (user_data 2000)) = PsGetCurrentThreadId thread_p12_t8 /\
  (uid (mem dirty_world (user_data 2000)) ≠ __get_thread_uid thread_p12_t8) /\
  exists cached,
    pools dirty_world = Some cached /\
    __acrt_freeptd thread_p12_t8 dirty_world =
      Returned tt (released 2000 cached dirty_world) /\
    (2000 ∉ table (released 2000 cached dirty_world)) /\
    pools (released 2000 cached dirty_world) = Some (2000 :: cached) /\
    forall block,
      block ≠ 0 ->
      block = _strerror_buffer (base (mem dirty_world (user_data 2000))) \/
      block = _wcserror_buffer (base (mem dirty_world (user_data 2000))) ->
      block ∉ crt_heap (released 2000 cached dirty_world).
Proof.
  assert (Hin : 2000 ∈ table dirty_world) by compute_done.
  assert (Hstale : uid (mem dirty_world (user_data 2000))
                   ≠ __get_thread_uid thread_p12_t8) by (by vm_compute).
  split; [apply dirty_world_ready|]. split; [exact Hin|].
  split; [reflexivity|]. split; [exact Hstale|].
  exact (proj2 (freeptd_matches_by_id_only thread_p12_t8 dirty_world 2000
                  dirty_world_ready Hin eq_refl Hstale)).
Defined.

(** The block of the initialising thread is untouched when thread 8 of
    process 4 obtains its own. *)
Lemma getptd_noexit_leaves_blocks_untouched_witness :
  consistent started_world /\
  __acrt_getptd_noexit thread_p4_t8 started_world =
    Returned (Some 2032) joined_world /\
  forall node,
    node ∈ table started_world ->
    node ∈ table joined_world /\
    mem joined_world (user_data node) = mem started_world (user_data node).
Proof.
  split; [apply started_world_ready|]. split; [reflexivity|].
  exact (getptd_noexit_leaves_blocks_untouched thread_p4_t8 started_world
           (Some 2032) joined_world (proj1 started_world_ready) eq_refl).
Defined.

(** ** Sessions at the sample states *)

(** Thread 16 initialises the registry, thread 8 obtains a block and fills
    it; teardown then hands all three buffers back. *)
Lemma teardown_returns_every_buffer_witness :
  boot boot_world /\
  __acrt_initialize_ptd 0 thread_p4_t16 boot_world
    = Returned true started_world /\
  rtc use started_world dirty_world /\
  exists w3,
    __acrt_uninitialize_ptd (length (table dirty_world)) false dirty_world
      = Returned true w3 /\
    table w3 = [] /\ pools w3 = None /\
    nonpaged w3 ≡ₚ nonpaged boot_world.
Proof.
  assert (Huse : rtc use started_world dirty_world).
  { apply (rtc_l use started_world joined_world dirty_world).
    - by apply (use_getptd_noexit thread_p4_t8 (Some 2032)).
    - apply rtc_once. apply use_owner. compute_done. }
  split; [apply boot_world_boot|]. split; [reflexivity|].
  split; [exact Huse|].
  exact (teardown_returns_every_buffer 0 thread_p4_t16 false boot_world
           started_world dirty_world boot_world_boot eq_refl Huse).
Defined.

(** Thread 8 of process 4 releases its block twice. *)
Lemma freeptd_twice_is_once_witness :
  ready dirty_world /\
  __acrt_freeptd thread_p4_t8 dirty_world = Returned tt released_world /\
  table_lookup (current_ptd thread_p4_t8) released_world
    = Returned None released_world /\
  __acrt_freeptd thread_p4_t8 released_world = Returned tt released_world.
Proof.
  split; [apply dirty_world_ready|]. split; [reflexivity|].
  exact (freeptd_twice_is_once thread_p4_t8 dirty_world released_world
           dirty_world_ready eq_refl).
Defined.

(** ... and the block of thread 16 stays as it is. *)
Lemma freeptd_leaves_other_blocks_witness :
  ready dirty_world /\
  __acrt_freeptd thread_p4_t8 dirty_world = Returned tt released_world /\
  mem released_world = mem dirty_world /\
  (forall node,
     node ∈ table dirty_world ->
     tid (mem dirty_world (user_data node)) ≠ PsGetCurrentThreadId thread_p4_t8 ->
     node ∈ table released_world) /\
  forall other,
    PsGetCurrentThreadId other ≠ PsGetCurrentThreadId thread_p4_t8 ->
    find_current other released_world = find_current other dirty_world.
Proof.
  split; [apply dirty_world_ready|]. split; [reflexivity|].
  exact (freeptd_leaves_other_blocks thread_p4_t8 dirty_world released_world
           dirty_world_ready eq_refl).
Defined.

(** Three new threads call while two buffers are left. *)
Lemma calls_until_exhausted_witness :
  ready started_world /\
  NoDup (PsGetCurrentThreadId
           <$> [thread_p4_t8; thread_p4_t24; thread_p4_t32]) /\
  (forall t, t ∈ [thread_p4_t8; thread_p4_t24; thread_p4_t32] ->
             find_current t started_world = None) /\
  exists w',
    calls [thread_p4_t8; thread_p4_t24; thread_p4_t32] started_world =
      Returned (((Some ∘ user_data) <$> take 3 (free_buffers started_world))
                ++ replicate (3 - length (free_buffers started_world)) None)
               w' /\
    length (table w') =
      (length (table started_world)
       + min 3 (length (free_buffers started_world)))%nat.
Proof.
  assert (Hnodup : NoDup (PsGetCurrentThreadId
             <$> [thread_p4_t8; thread_p4_t24; thread_p4_t32]))
    by compute_done.
  assert (Hnew : forall t,
             t ∈ [thread_p4_t8; thread_p4_t24; thread_p4_t32] ->
             find_current t started_world = None).
  { intros t Ht. apply list_elem_of_In in Ht. simpl in Ht.
    destruct Ht as [<-|[<-|[<-|[]]]]; reflexivity. }
  split; [apply started_world_ready|]. split; [exact Hnodup|].
  split; [exact Hnew|].
  exact (calls_until_exhausted [thread_p4_t8; thread_p4_t24; thread_p4_t32]
           started_world started_world_ready Hnodup Hnew).
Defined.

(** Thread 32 gets the buffer of thread 8 once thread 8 has released it. *)
Lemma release_makes_room_witness :
  ready full_world /\
  free_buffers full_world = [] /\
  find_current thread_p4_t32 full_world = None /\
  find_current thread_p4_t8 full_world = Some 2000 /\
  __acrt_getptd_noexit thread_p4_t32 full_world = Returned None full_world /\
  exists w1 w2,
    __acrt_freeptd thread_p4_t8 full_world = Returned tt w1 /\
    __acrt_getptd_noexit thread_p4_t32 w1
      = Returned (Some (user_data 2000)) w2 /\
    mem w2 (user_data 2000) = current_ptd thread_p4_t32 /\
    find_current thread_p4_t8 w2 = None.
Proof.
  split; [apply full_world_ready|]. split; [reflexivity|].
  split; [reflexivity|]. split; [reflexivity|].
  exact (release_makes_room thread_p4_t32 thread_p4_t8 full_world 2000
           full_world_ready eq_refl eq_refl eq_refl).
Defined.

(** The block of thread 8 after a second initialisation. *)
Lemma initialize_abandons_blocks_witness :
  consistent dirty_world /\
  2000 ∈ table dirty_world ++ pool_entries dirty_world /\
  __acrt_initialize_ptd 0 thread_p4_t16 dirty_world
    = Returned true reinitialized_world /\
  (2000 ∉ all_buffers reinitialized_world) /\
  crt_heap reinitialized_world = crt_heap dirty_world /\
  mem reinitialized_world (user_data 2000) = mem dirty_world (user_data 2000).
Proof.
  assert (Hin : 2000 ∈ table dirty_world ++ pool_entries dirty_world)
    by compute_done.
  split; [apply dirty_world_ready|]. split; [exact Hin|].
  split; [reflexivity|].
  exact (initialize_abandons_blocks 0 thread_p4_t16 dirty_world true
           reinitialized_world 2000 (proj1 dirty_world_ready) Hin eq_refl).
Defined.

(** The lookup of thread 8 of process 4 among the two linked blocks. *)
Lemma lookup_finds_the_callers_id_witness :
  reachable dirty_world /\
  (forall node,
     node ∈ table dirty_world ->
     tid (mem dirty_world (user_data node)) = PsGetCurrentThreadId thread_p4_t8 ->
     table_lookup (current_ptd thread_p4_t8) dirty_world
       = Returned (Some (user_data node)) dirty_world) /\
  ((forall node,
      node ∈ table dirty_world ->
      tid (mem dirty_world (user_data node))
        ≠ PsGetCurrentThreadId thread_p4_t8) ->
   table_lookup (current_ptd thread_p4_t8) dirty_world
     = Returned None dirty_world).
Proof.
  split; [apply dirty_world_reachable|].
  exact (lookup_finds_the_callers_id thread_p4_t8 dirty_world
           dirty_world_reachable).
Defined.

(** ** The PE image utilities *)

Section ImageProofs.
Context `{ImageConstants}.
Variable space : address_space.

Lemma find_pe_section_from_found nt rva remaining : forall it found,
  find_pe_section_from space nt rva remaining it = Value (Some found) <->
  exists i section,
    found = (nt, i) /\ (it <= i < it + remaining)%nat /\
    section_at space nt i = Some section /\
    section_holds section rva = true /\
    none_holds space nt rva it i.
Proof.
  induction remaining as [|remaining IH]; intros it found; simpl.
  - split; [discriminate|]. intros (i & s & _ & Hi & _). lia.
  - unfold mbind, seh_bind, read.
    destruct (section_at space nt it) as [section|] eqn:Hat.
    + destruct (section_holds section rva) eqn:Hholds.
      * split.
        -- intros Hfound. inversion Hfound; subst found.
           exists it, section. repeat split; try done; try lia.
           intros j Hj. lia.
        -- intros (i & s & -> & Hi & Hs & Hh & Hnone).
           destruct (decide (i = it)) as [->|Hne]; [done|].
           destruct (Hnone it) as (s' & Hs' & Hh'); [lia|]. congruence.
      * rewrite IH. split.
        -- intros (i & s & -> & Hi & Hs & Hh & Hnone).
           exists i, s. repeat split; try done; try lia.
           intros j Hj. destruct (decide (j = it)) as [->|Hne]; [eauto|].
           apply Hnone. lia.
        -- intros (i & s & -> & Hi & Hs & Hh & Hnone).
           assert (i ≠ it) by (intros ->; congruence).
           exists i, s. repeat split; try done; try lia.
           intros j Hj. apply Hnone. lia.
    + split; [discriminate|].
      intros (i & s & -> & Hi & Hs & Hh & Hnone).
      destruct (decide (i = it)) as [->|Hne]; [congruence|].
      destruct (Hnone it) as (s' & Hs' & _); [lia|]. congruence.
Qed.

Lemma find_pe_section_from_missing nt rva remaining : forall it,
  find_pe_section_from space nt rva remaining it = Value None <->
  none_holds space nt rva it (it + remaining).
Proof.
  induction remaining as [|remaining IH]; intros it; simpl.
  - split; [|done]. intros _ j Hj. lia.
  - unfold mbind, seh_bind, read.
    destruct (section_at space nt it) as [section|] eqn:Hat.
    + destruct (section_holds section rva) eqn:Hholds.
      * split; [discriminate|]. intros Hnone.
        destruct (Hnone it) as (s' & Hs' & Hh'); [lia|]. congruence.
      * rewrite IH. split.
        -- intros Hnone j Hj.
           destruct (decide (j = it)) as [->|Hne]; [eauto|]. apply Hnone. lia.
        -- intros Hnone j Hj. apply Hnone. lia.
    + split; [discriminate|]. intros Hnone.
      destruct (Hnone it) as (s' & Hs' & _); [lia|]. congruence.
Qed.

Lemma section_holds_bounds section rva :
  section_holds section rva = true ->
  VirtualAddress section <= rva < 2 ^ 32.
Proof.
  unfold section_holds, to_DWORD. intros Hholds.
  apply andb_true_iff in Hholds as [Hlow Hhigh].
  apply Z.leb_le in Hlow. apply Z.ltb_lt in Hhigh.
  pose proof (Z.mod_pos_bound
                (VirtualAddress section + VirtualSize section) (2 ^ 32)
                ltac:(lia)).
  lia.
Qed.

Lemma section_holds_no_wrap section rva :
  0 <= VirtualAddress section < 2 ^ 32 ->
  0 <= VirtualSize section < 2 ^ 32 ->
  section_holds section rva = true <->
  VirtualAddress section <= rva
    < VirtualAddress section + VirtualSize section /\
  VirtualAddress section + VirtualSize section < 2 ^ 32.
Proof.
  intros Hva Hvs. unfold section_holds, to_DWORD.
  rewrite andb_true_iff, Z.leb_le, Z.ltb_lt.
  destruct (Z_lt_ge_dec (VirtualAddress section + VirtualSize section) (2 ^ 32))
    as [Hfits|Hwraps].
  - rewrite Z.mod_small by lia. lia.
  - rewrite <- (Z.mod_unique_pos
                  (VirtualAddress section + VirtualSize section) (2 ^ 32) 1
                  (VirtualAddress section + VirtualSize section - 2 ^ 32))
      by lia.
    lia.
Qed.

Lemma is_potentially_valid_image_base_true image_base :
  is_potentially_valid_image_base space image_base = Value true <->
  exists dos_header nt_header,
    valid_headers space image_base dos_header nt_header.
Proof.
  unfold is_potentially_valid_image_base, valid_headers, mbind, seh_bind,
    mret, seh_ret, read.
  destruct (Z.eqb_spec image_base 0) as [->|Hbase].
  { split; [discriminate|]. by intros (? & ? & ? & _). }
  destruct (dos_header_at space image_base) as [dos|] eqn:Hdos.
  2: { split; [discriminate|]. by intros (? & ? & _ & ? & _). }
  destruct (Z.eqb_spec (e_magic dos) IMAGE_DOS_SIGNATURE) as [Hmagic|Hmagic];
    simpl.
  2: { split; [discriminate|].
       intros (dos' & ? & _ & Heq & Hm & _). inversion Heq; subst dos'. done. }
  destruct (nt_headers_at space (nt_header_address image_base dos))
    as [nth|] eqn:Hnt.
  2: { split; [discriminate|].
       intros (dos' & ? & _ & Heq & _ & Hn & _). inversion Heq; subst dos'.
       congruence. }
  destruct (Z.eqb_spec (Signature nth) IMAGE_NT_SIGNATURE) as [Hsig|Hsig];
    simpl.
  2: { split; [discriminate|].
       intros (dos' & nth' & _ & Heq & _ & Hn & Hs & _).
       inversion Heq; subst dos'. rewrite Hnt in Hn. inversion Hn; subst nth'.
       done. }
  destruct (Z.eqb_spec (Magic nth) IMAGE_NT_OPTIONAL_HDR_MAGIC) as [Hopt|Hopt];
    simpl.
  2: { split; [discriminate|].
       intros (dos' & nth' & _ & Heq & _ & Hn & _ & Ho).
       inversion Heq; subst dos'. rewrite Hnt in Hn. inversion Hn; subst nth'.
       done. }
  split; [|done]. intros _. by exists dos, nth.
Qed.

Lemma is_potentially_valid_image_base_cases image_base :
  is_potentially_valid_image_base space image_base = Value true \/
  is_potentially_valid_image_base space image_base = Value false \/
  is_potentially_valid_image_base space image_base = AccessViolation.
Proof.
  destruct (is_potentially_valid_image_base space image_base) as [[|]|]; auto.
Qed.

Lemma find_pe_section_found image_base rva dos_header nt_header found :
  dos_header_at space image_base = Some dos_header ->
  nt_headers_at space (nt_header_address image_base dos_header)
    = Some nt_header ->
  find_pe_section space image_base rva = Value (Some found) <->
  exists i section,
    found = (nt_header_address image_base dos_header, i) /\
    (i < Z.to_nat (NumberOfSections nt_header))%nat /\
    section_at space (nt_header_address image_base dos_header) i
      = Some section /\
    section_holds section rva = true /\
    none_holds space (nt_header_address image_base dos_header) rva 0 i.
Proof.
  intros Hdos Hnt. unfold find_pe_section, mbind, seh_bind, read.
  rewrite Hdos, Hnt, find_pe_section_from_found.
  split; intros (i & s & Hf & Hi & Hrest); exists i, s;
    (split; [done|]); (split; [lia|done]).
Qed.

(** The section [find_pe_section] returns is the first of the table, in
    table order, that holds the RVA, every section before it being
    readable; it returns null exactly when all [NumberOfSections] sections
    are readable and none holds the RVA. *)
Theorem find_pe_section_first_match image_base rva dos_header nt_header :
  dos_header_at space image_base = Some dos_header ->
  nt_headers_at space (nt_header_address image_base dos_header)
    = Some nt_header ->
  (forall found,
     find_pe_section space image_base rva = Value (Some found) <->
     exists i section,
       found = (nt_header_address image_base dos_header, i) /\
       (i < Z.to_nat (NumberOfSections nt_header))%nat /\
       section_at space (nt_header_address image_base dos_header) i
         = Some section /\
       section_holds section rva = true /\
       none_holds space (nt_header_address image_base dos_header) rva 0 i) /\
  (find_pe_section space image_base rva = Value None <->
   none_holds space (nt_header_address image_base dos_header) rva 0
              (Z.to_nat (NumberOfSections nt_header))).
Proof.
  intros Hdos Hnt. split.
  - intros found. by apply find_pe_section_found.
  - unfold find_pe_section, mbind, seh_bind, read.
    by rewrite Hdos, Hnt, find_pe_section_from_missing.
Qed.

Lemma find_pe_section_holds image_base rva nt it :
  find_pe_section space image_base rva = Value (Some (nt, it)) ->
  exists section,
    section_at space nt it = Some section /\
    section_holds section rva = true.
Proof.
  unfold find_pe_section, mbind, seh_bind, read.
  destruct (dos_header_at space image_base) as [dos|]; [|discriminate].
  destruct (nt_headers_at space (nt_header_address image_base dos))
    as [nth|]; [|discriminate].
  rewrite find_pe_section_from_found.
  intros (i & s & Hf & _ & Hs & Hh & _). inversion Hf; subst. eauto.
Qed.

(** The end of a section is computed in 32 bits: the section
    [find_pe_section] returns holds the RVA without wrap-around, so a
    section whose [VirtualAddress + VirtualSize] reaches 2^32 is never
    returned. *)
Theorem find_pe_section_skips_wrapping_sections image_base rva nt it section :
  find_pe_section space image_base rva = Value (Some (nt, it)) ->
  section_at space nt it = Some section ->
  0 <= VirtualAddress section < 2 ^ 32 ->
  0 <= VirtualSize section < 2 ^ 32 ->
  VirtualAddress section <= rva
    < VirtualAddress section + VirtualSize section /\
  VirtualAddress section + VirtualSize section < 2 ^ 32.
Proof.
  intros Hfound Hat Hva Hvs.
  apply find_pe_section_holds in Hfound as (s & Hs & Hholds).
  rewrite Hat in Hs. inversion Hs; subst s.
  by apply section_holds_no_wrap.
Qed.

Lemma is_nonwritable_true_inv ImageBase target :
  __scrt_is_nonwritable_in_current_image space ImageBase target = true ->
  exists dos_header nt_header i section,
    valid_headers space ImageBase dos_header nt_header /\
    (i < Z.to_nat (NumberOfSections nt_header))%nat /\
    section_at space (nt_header_address ImageBase dos_header) i
      = Some section /\
    section_holds section (to_size_t (target - ImageBase)) = true /\
    none_holds space (nt_header_address ImageBase dos_header)
               (to_size_t (target - ImageBase)) 0 i /\
    Z.land (Characteristics section) IMAGE_SCN_MEM_WRITE = 0.
Proof.
  unfold __scrt_is_nonwritable_in_current_image, try_except_access_violation.
  destruct (is_potentially_valid_image_base_cases ImageBase)
    as [Hvalid|[Hvalid|Hvalid]]; rewrite Hvalid; simpl; try discriminate.
  apply is_potentially_valid_image_base_true in Hvalid
    as (dos & nth & Hheaders).
  pose proof Hheaders as (_ & Hdos & _ & Hnt & _).
  destruct (find_pe_section space ImageBase (to_size_t (target - ImageBase)))
    as [[[nt it]|]|] eqn:Hfind; simpl; try discriminate.
  apply (find_pe_section_found _ _ dos nth) in Hfind
    as (i & s & Hf & Hi & Hs & Hholds & Hnone); [|done..].
  inversion Hf; subst nt it. unfold read. rewrite Hs. simpl.
  destruct (Z.eqb_spec (Z.land (Characteristics s) IMAGE_SCN_MEM_WRITE) 0)
    as [Hflag|Hflag]; simpl; [|discriminate].
  intros _. by exists dos, nth, i, s.
Qed.

(** [__scrt_is_nonwritable_in_current_image] answers true exactly when the
    image base is not null, the DOS and NT headers are readable with their
    three signatures, and the first section of the table that holds the RVA
    of the target, every section before it being readable, lacks
    [IMAGE_SCN_MEM_WRITE].  A null image base, an unreadable header, a wrong
    signature, a target in no section and a first match that is writable all
    give false. *)
Theorem is_nonwritable_exactly_when ImageBase target :
  __scrt_is_nonwritable_in_current_image space ImageBase target = true <->
  exists dos_header nt_header i section,
    valid_headers space ImageBase dos_header nt_header /\
    (i < Z.to_nat (NumberOfSections nt_header))%nat /\
    section_at space (nt_header_address ImageBase dos_header) i
      = Some section /\
    section_holds section (to_size_t (target - ImageBase)) = true /\
    none_holds space (nt_header_address ImageBase dos_header)
               (to_size_t (target - ImageBase)) 0 i /\
    Z.land (Characteristics section) IMAGE_SCN_MEM_WRITE = 0.
Proof.
  split; [apply is_nonwritable_true_inv|].
  intros (dos & nth & i & s & Hheaders & Hi & Hs & Hholds & Hnone & Hflag).
  assert (Hvalid : is_potentially_valid_image_base space ImageBase = Value true)
    by (apply is_potentially_valid_image_base_true; eauto).
  pose proof Hheaders as (_ & Hdos & _ & Hnt & _).
  assert (Hfind : find_pe_section space ImageBase
                    (to_size_t (target - ImageBase))
                  = Value (Some (nt_header_address ImageBase dos, i))).
  { apply (find_pe_section_found _ _ dos nth); [done..|]. by exists i, s. }
  unfold __scrt_is_nonwritable_in_current_image, try_except_access_violation.
  rewrite Hvalid. simpl. rewrite Hfind. simpl. unfold read. rewrite Hs. simpl.
  by rewrite Hflag.
Qed.

(** Only targets whose RVA, the difference to the image base as a 64-bit
    unsigned value, is below 2^32 can be reported: for every other target
    the answer is false whatever the headers say.  For an image base of at
    most 2^64 - 2^32 these are all targets below the image base and all
    targets 2^32 bytes or more above it. *)
Theorem is_nonwritable_only_within_4GiB ImageBase target :
  2 ^ 32 <= to_size_t (target - ImageBase) ->
  __scrt_is_nonwritable_in_current_image space ImageBase target = false.
Proof.
  intros Hfar.
  destruct (__scrt_is_nonwritable_in_current_image space ImageBase target)
    eqn:Hresult; [|done].
  apply is_nonwritable_true_inv in Hresult
    as (dos & nth & i & s & _ & _ & _ & Hholds & _).
  apply section_holds_bounds in Hholds. lia.
Qed.
End ImageProofs.

#[local] Existing Instance sample_image_constants.

(** The section that holds RVA 0x3200 of the sample image. *)
Lemma find_pe_section_first_match_witness :
  dos_header_at sample_space sample_image_base = Some sample_dos_header /\
  nt_headers_at sample_space
      (nt_header_address sample_image_base sample_dos_header)
    = Some sample_nt_headers /\
  (forall found,
     find_pe_section sample_space sample_image_base 12800
       = Value (Some found) <->
     exists i section,
       found = (nt_header_address sample_image_base sample_dos_header, i) /\
       (i < Z.to_nat (NumberOfSections sample_nt_headers))%nat /\
       section_at sample_space
           (nt_header_address sample_image_base sample_dos_header) i
         = Some section /\
       section_holds section 12800 = true /\
       none_holds sample_space
         (nt_header_address sample_image_base sample_dos_header) 12800 0 i) /\
  (find_pe_section sample_space sample_image_base 12800 = Value None <->
   none_holds sample_space
     (nt_header_address sample_image_base sample_dos_header) 12800 0
     (Z.to_nat (NumberOfSections sample_nt_headers))).
Proof.
  split; [reflexivity|]. split; [reflexivity|].
  exact (find_pe_section_first_match sample_space sample_image_base 12800
           sample_dos_header sample_nt_headers eq_refl eq_refl).
Defined.

(** RVA 0x3200 lies in the read-only data of the sample image. *)
Lemma find_pe_section_skips_wrapping_sections_witness :
  find_pe_section sample_space sample_image_base 12800
    = Value (Some (sample_image_base + 248, 1%nat)) /\
  section_at sample_space (sample_image_base + 248) 1 = Some sample_rdata /\
  0 <= VirtualAddress sample_rdata < 2 ^ 32 /\
  0 <= VirtualSize sample_rdata < 2 ^ 32 /\
  VirtualAddress sample_rdata <= 12800
    < VirtualAddress sample_rdata + VirtualSize sample_rdata /\
  VirtualAddress sample_rdata + VirtualSize sample_rdata < 2 ^ 32.
Proof.
  assert (Hva : 0 <= VirtualAddress sample_rdata < 2 ^ 32) by (simpl; lia).
  assert (Hvs : 0 <= VirtualSize sample_rdata < 2 ^ 32) by (simpl; lia).
  split; [reflexivity|]. split; [reflexivity|].
  split; [exact Hva|]. split; [exact Hvs|].
  exact (find_pe_section_skips_wrapping_sections sample_space
           sample_image_base 12800 (sample_image_base + 248) 1 sample_rdata
           eq_refl eq_refl Hva Hvs).
Defined.

(** The byte before the sample image. *)
Lemma is_nonwritable_only_within_4GiB_witness :
  2 ^ 32 <= to_size_t (sample_image_base - 1 - sample_image_base) /\
  __scrt_is_nonwritable_in_current_image sample_space sample_image_base
    (sample_image_base - 1) = false.
Proof.
  assert (Hfar : 2 ^ 32 <= to_size_t (sample_image_base - 1 - sample_image_base))
    by (vm_compute; discriminate).
  split; [exact Hfar|].
  exact (is_nonwritable_only_within_4GiB sample_space sample_image_base
           (sample_image_base - 1) Hfar).
Defined.

(** ** On-exit wrappers, start-up sequencing, thread ids *)

(** [atexit] reports success exactly when [_crt_atexit] returned 0 for a
    function that is not null; it reports -1 otherwise, so also for a null
    function that [_crt_atexit] registered.  Either way the on-exit tables
    are as [_crt_atexit] left them. *)
Theorem atexit_reports_registration
    (onexit_tables : Type)
    (_crt_atexit : Z -> onexit_tables -> Z * onexit_tables)
    (function : Z) (s : onexit_tables) :
  (fst (atexit onexit_tables _crt_atexit function s) = 0 <->
   fst (_crt_atexit function s) = 0 /\ function ≠ 0) /\
  (fst (atexit onexit_tables _crt_atexit function s) = 0 \/
   fst (atexit onexit_tables _crt_atexit function s) = -1) /\
  snd (atexit onexit_tables _crt_atexit function s)
    = snd (_crt_atexit function s).
Proof.
  unfold atexit, _onexit.
  destruct (_crt_atexit function s) as [status s']. simpl.
  destruct (Z.eqb_spec status 0) as [->|Hstatus];
    destruct (Z.eqb_spec function 0) as [->|Hfunction]; simpl;
    repeat split; try (intros [? ?]); try intros ?; auto; try lia.
Qed.

(** Start-up brings the VCRuntime up before the AppCRT.  When
    [__scrt_initialize_crt] returns false no component is left up: a failed
    [__vcrt_initialize] ends it before [__acrt_initialize] is called, a
    failed [__acrt_initialize] is followed by [__vcrt_uninitialize].  When
    it returns true both are up, and [__scrt_uninitialize_crt] takes them
    down in the opposite order. *)
Theorem crt_startup_is_well_bracketed (vcrt_ok acrt_ok : bool)
    (is_terminating from_exit : bool) :
  let started := __scrt_initialize_crt vcrt_ok acrt_ok [] in
  fst started = vcrt_ok && acrt_ok /\
  components_up (snd started) [] =
    Some (if fst started then [AppCRT; VCRuntime] else []) /\
  (vcrt_ok = false -> acrt_initialize acrt_ok ∉ snd started) /\
  (fst started = true ->
   components_up
     (snd (__scrt_uninitialize_crt is_terminating from_exit (snd started))) []
   = Some []).
Proof.
  destruct vcrt_ok, acrt_ok; simpl; repeat split; try done.
  all: intros _ Hin.
  all: apply list_elem_of_In in Hin; simpl in Hin.
  all: intuition discriminate.
Qed.

Lemma mod_mul_div (x a b : Z) :
  0 < a -> 0 < b -> (x mod (a * b)) / a = (x / a) mod b.
Proof.
  intros Ha Hb. rewrite Z.rem_mul_r by lia.
  rewrite Z.mul_comm, Z.div_add by lia.
  rewrite Z.div_small by (apply Z.mod_pos_bound; lia). lia.
Qed.

Lemma mod_mul_mod (x a b : Z) :
  0 < a -> 0 < b -> (x mod (a * b)) mod a = x mod a.
Proof.
  intros Ha Hb. rewrite Z.rem_mul_r by lia.
  rewrite Z.mul_comm, Z.mod_add by lia. apply Z.mod_mod. lia.
Qed.

(** The token read as an unsigned 64-bit value. *)
Lemma get_thread_uid_unsigned (thread : ETHREAD) :
  __get_thread_uid thread mod 2 ^ 64 =
    (to_size_t (UniqueProcess (Cid thread)) / 4) mod 2 ^ 32 * 2 ^ 32
    + (to_size_t (UniqueThread (Cid thread)) / 4) mod 2 ^ 32.
Proof.
  rewrite get_thread_uid_eq.
  set (high := (to_size_t (UniqueProcess (Cid thread)) / 4) mod 2 ^ 32).
  set (low := (to_size_t (UniqueThread (Cid thread)) / 4) mod 2 ^ 32).
  assert (Hh : 0 <= high < 2 ^ 32) by (apply Z.mod_pos_bound; lia).
  assert (Hl : 0 <= low < 2 ^ 32) by (apply Z.mod_pos_bound; lia).
  rewrite to_long_long_shifted by exact Hh.
  destruct (Z.ltb_spec high (2 ^ 31)) as [Hlt|Hge].
  - apply Z.mod_small. lia.
  - symmetry. apply (Z.mod_unique_pos _ _ (-1)); lia.
Qed.

(** Two threads get the same token exactly when bits 2 to 33 of their
    process identifiers agree and bits 2 to 33 of their thread identifiers
    agree: the two lowest bits and the bits from 34 on of either identifier
    do not reach the token. *)
Theorem thread_uid_equal_iff (first second : ETHREAD) :
  __get_thread_uid first = __get_thread_uid second <->
  (to_size_t (UniqueProcess (PsGetThreadClientId first)) / 4) mod 2 ^ 32
    = (to_size_t (UniqueProcess (PsGetThreadClientId second)) / 4) mod 2 ^ 32 /\
  (to_size_t (UniqueThread (PsGetThreadClientId first)) / 4) mod 2 ^ 32
    = (to_size_t (UniqueThread (PsGetThreadClientId second)) / 4) mod 2 ^ 32.
Proof.
  unfold PsGetThreadClientId. split.
  - intros Heq.
    pose proof (get_thread_uid_unsigned first) as Hfirst.
    pose proof (get_thread_uid_unsigned second) as Hsecond.
    rewrite Heq, Hsecond in Hfirst. clear Heq Hsecond.
    pose proof (Z.mod_pos_bound
      (to_size_t (UniqueThread (Cid first)) / 4) (2 ^ 32) ltac:(lia)).
    pose proof (Z.mod_pos_bound
      (to_size_t (UniqueThread (Cid second)) / 4) (2 ^ 32) ltac:(lia)).
    lia.
  - intros [Hprocess Hthread].
    rewrite (get_thread_uid_eq first), (get_thread_uid_eq second).
    cbv zeta. by rewrite Hprocess, Hthread.
Qed.

(** [__threadid] is the thread identifier cut to its low 32 bits: the
    conversion to [long] and back to [unsigned long] loses the sign.  A
    quarter of it is the low 30 bits of the token of the same thread. *)
Theorem threadid_is_the_low_half (current : ETHREAD) :
  __threadid current = PsGetCurrentThreadId current mod 2 ^ 32 /\
  __threadid current / 4 = (__get_thread_uid current mod 2 ^ 32) mod 2 ^ 30.
Proof.
  assert (Hid : __threadid current = PsGetCurrentThreadId current mod 2 ^ 32).
  { unfold __threadid, to_DWORD, HandleToLong.
    rewrite Zminus_mod_idemp_l. f_equal. lia. }
  split; [exact Hid|]. rewrite Hid. unfold PsGetCurrentThreadId.
  assert (Hlow : __get_thread_uid current mod 2 ^ 32 =
                 (to_size_t (UniqueThread (Cid current)) / 4) mod 2 ^ 32).
  { rewrite <- (mod_mul_mod (__get_thread_uid current) (2 ^ 32) (2 ^ 32))
      by lia.
    change (2 ^ 32 * 2 ^ 32) with (2 ^ 64).
    rewrite get_thread_uid_unsigned, Z.add_comm, Z.mod_add by lia.
    apply Z.mod_mod. lia. }
  rewrite Hlow. unfold to_size_t.
  change (2 ^ 64) with (4 * 2 ^ 62). rewrite mod_mul_div by lia.
  change (2 ^ 32) with (2 ^ 30 * 4) at 2. rewrite mod_mul_mod by lia.
  change (2 ^ 62) with (2 ^ 30 * 2 ^ 32). rewrite mod_mul_mod by lia.
  change (2 ^ 32) with (4 * 2 ^ 30). by rewrite mod_mul_div by lia.
Qed.
